(** * draw2dpdf: glyph outlines, string layout and draw dispatch

    A shallow embedding of [draw2dpdf/gc.go] (the PDF backend of draw2d)
    and the properties of its numeric conversion, contour tracer, glyph
    layout, draw dispatcher and state stack.

    Go values are modelled as follows:
    - [int32], [uint32], [int]: [Z], with the wrap-around of [int32]
      written out where the code can overflow ([x << 2]);
    - [float64]: [spec_float] at precision 53 and maximal exponent 1024,
      the executable IEEE 754 binary64 arithmetic of the standard library
      (round to nearest, ties to even);
    - strings: [string] for style tokens and messages; a text to lay out is
      given by the code points a Go [range] over the string yields;
    - slices: [list]; a nil pointer: [None];
    - a run-time panic: the outcome [Panics];
    - the graphic context [*GraphicContext] with the embedded
      [*draw2d.StackGraphicContext] and the document handle [*gofpdf.Fpdf]:
      records threaded through every operation. *)

From Stdlib Require Import ZArith Zquot List Bool String Lia QArith.
From Stdlib Require Import Floats.SpecFloat.
Import ListNotations.
Local Open Scope Z_scope.

(** ** float64 *)

Module F64.

Definition prec : Z := 53.
Definition emax : Z := 1024.

Definition float64 : Type := spec_float.

Definition add : float64 -> float64 -> float64 := SFadd prec emax.
Definition sub : float64 -> float64 -> float64 := SFsub prec emax.
Definition mul : float64 -> float64 -> float64 := SFmul prec emax.
Definition div : float64 -> float64 -> float64 := SFdiv prec emax.
Definition neg : float64 -> float64 := SFopp.
Definition eqb : float64 -> float64 -> bool := SFeqb.
Definition ltb : float64 -> float64 -> bool := SFltb.

(** [float64(z)] for an integer [z]: the nearest binary64 value. *)
Definition of_int (z : Z) : float64 := binary_normalize prec emax z 0 false.

Definition zero : float64 := S754_zero false.

(** A float64 value is one of the canonical representations. *)
Definition valid (f : float64) : bool := valid_binary prec emax f.

Definition is_finite (f : float64) : bool :=
  match f with S754_zero _ | S754_finite _ _ _ => true | _ => false end.

(** The integer part of a finite float64, rounded toward zero. *)
Definition trunc (f : float64) : option Z :=
  match f with
  | S754_zero _ => Some 0
  | S754_finite s m e =>
      Some (cond_Zopp s (match e with
                         | Zneg p => Zpos m / 2 ^ Zpos p
                         | _ => Zpos m * 2 ^ e
                         end))
  | _ => None
  end.

(** [int32(f)] and [int(f)]: truncation toward zero.  Go leaves the result
    to the implementation when the value does not fit; the most negative
    integer stands for it here, as on amd64. *)
Definition to_int32 (f : float64) : Z :=
  match trunc f with
  | Some z => if (- 2 ^ 31 <=? z) && (z <? 2 ^ 31) then z else - 2 ^ 31
  | None => - 2 ^ 31
  end.

Definition to_int (f : float64) : Z :=
  match trunc f with
  | Some z => if (- 2 ^ 63 <=? z) && (z <? 2 ^ 63) then z else - 2 ^ 63
  | None => - 2 ^ 63
  end.

(** The rational number a finite float64 stands for. *)
Definition to_Q (f : float64) : option Q :=
  match f with
  | S754_zero _ => Some 0%Q
  | S754_finite s m e =>
      let z := cond_Zopp s (Zpos m) in
      Some (match e with
            | Zneg p => Qmake z (Pos.pow 2 p)
            | _ => Qmake (z * 2 ^ e) 1
            end)
  | _ => None
  end.

(** [f] is finite and stands exactly for the rational [q]. *)
Definition represents (f : float64) (q : Q) : Prop :=
  exists q', to_Q f = Some q' /\ Qeq q' q.

(** Structural equality of two values, as a boolean. *)
Definition same (x y : float64) : bool :=
  match x, y with
  | S754_zero a, S754_zero b => Bool.eqb a b
  | S754_infinity a, S754_infinity b => Bool.eqb a b
  | S754_nan, S754_nan => true
  | S754_finite a m e, S754_finite b m' e' =>
      Bool.eqb a b && Pos.eqb m m' && Z.eqb e e'
  | _, _ => false
  end.

(** The smallest exponent and the exponent function of binary64. *)
Definition emin : Z := -1074.
Definition fexp64 (e : Z) : Z := Z.max (e - 53) (-1074).

(** The canonical representation of [p * 2 ^ e], for a mantissa of at
    most 53 bits in the normal range. *)
Definition canon (s : bool) (p : positive) (e : Z) : float64 :=
  S754_finite s (Z.to_pos (Zpos p * 2 ^ (53 - Zpos (digits2_pos p))))
              (Zpos (digits2_pos p) + e - 53).

Definition canonZ (n k : Z) : float64 :=
  match n with
  | Z0 => S754_zero false
  | Zpos p => canon false p (- k)
  | Zneg p => canon true p (- k)
  end.

(** The float64 nearest to [n / 2 ^ k]. *)
Definition dyadic (n k : Z) : float64 := binary_normalize prec emax n (- k) false.

(** The second half of [binary_round_aux]: the rounded mantissa [m] at
    exponent [e] is renormalised and packed. *)
Definition round_tail (s : bool) (m e : Z) : float64 :=
  let '(mrs, e') := shr_fexp prec emax m e loc_Exact in
  match shr_m mrs with
  | Z0 => S754_zero s
  | Zpos p => if e' <=? emax - prec then S754_finite s p e' else S754_infinity s
  | Zneg _ => S754_nan
  end.

(** A rounded result of sign [s]: a zero, an infinity or a canonical
    finite number of that sign. *)
Definition rounded (s : bool) (f : float64) : Prop :=
  match f with
  | S754_zero s' => s' = s
  | S754_infinity s' => s' = s
  | S754_finite s' m e => s' = s /\ bounded prec emax m e = true
  | S754_nan => False
  end.

Definition is_zero (f : float64) : bool :=
  match f with S754_zero _ => true | _ => false end.

End F64.

Abbreviation float64 := F64.float64.

(** ** Numeric conversion *)

(** Two's complement wrap-around of an [int32] result. *)
Definition wrap32 (z : Z) : Z := (z + 2 ^ 31) mod 2 ^ 32 - 2 ^ 31.

(** [fUnitsToFloat64]: Go's [/] is [Z.quot] and [%] is [Z.rem]. *)
Definition fUnitsToFloat64 (x : Z) : float64 :=
  let scaled := wrap32 (Z.shiftl x 2) in
  F64.add (F64.of_int (Z.quot scaled 256))
          (F64.div (F64.of_int (Z.rem scaled 256)) (F64.of_int 256)).


(** ** Data model *)

(** [truetype.Point]: coordinates in font units ([int32]) and the flag
    word ([uint32]) whose lowest bit marks an on-curve point. *)
Record Point : Type := mkPoint { X : Z; Y : Z; Flags : Z }.

(** [truetype.Index] and [rune]. *)
Definition Index : Type := Z.
Definition rune : Type := Z.

(** Go's [error] values, kept as their message. *)
Definition error : Type := string.

(** [truetype.GlyphBuf]: the points of the loaded glyph and the end offset
    of each of its contours. *)
Record GlyphBuf : Type := mkGlyphBuf { GPoint : list Point; GEnd : list Z }.

(** The font backend (package truetype, external): character map, kerning,
    horizontal metrics and outline loading of one font, each at an [int32]
    scale.  [FLoad] is what [GlyphBuf.Load] computes for this font without
    hinting: an error or the outline. *)
Record Font : Type := mkFont {
  FIndex : rune -> Index;
  FKerning : Z -> Index -> Index -> Z;
  FAdvanceWidth : Z -> Index -> Z;
  FLoad : Z -> Index -> error + GlyphBuf
}.

(** [color.Color], through the four [uint32] channels [RGBA()] returns. *)
Record Color : Type := mkColor { cR : Z; cG : Z; cB : Z; cA : Z }.

(** Modelled from the spec: the fill rule of package draw2d (nonzero
    winding or even-odd) and its test [UseNonZeroWinding]. *)
Inductive FillRule : Type := FillRuleEvenOdd | FillRuleWinding.

Definition UseNonZeroWinding (f : FillRule) : bool :=
  match f with FillRuleWinding => true | FillRuleEvenOdd => false end.

(** [draw2d.Cap] and [draw2d.Join], by the constants the tables [caps]
    and [joins] list. *)
Inductive Cap : Type := RoundCap | ButtCap | SquareCap.
Inductive Join : Type := BevelJoin | RoundJoin | MiterJoin.

Definition caps (c : Cap) : string :=
  match c with
  | RoundCap => "round"
  | ButtCap => "butt"
  | SquareCap => "square"
  end%string.

Definition joins (j : Join) : string :=
  match j with
  | RoundJoin => "round"
  | BevelJoin => "bevel"
  | MiterJoin => "miter"
  end%string.

(** Modelled from the spec: a path of package draw2d, the ordered sequence
    of its segments (section 3, "Path"). *)
Inductive Segment : Type :=
| SegMoveTo (x y : float64)
| SegLineTo (x y : float64)
| SegQuadCurveTo (cx cy x y : float64)
| SegClose.

Definition PathStorage : Type := list Segment.

Definition NewPathStorage : PathStorage := [].

(** Modelled from the spec: the font description of package draw2d. *)
Record FontData : Type := mkFontData { FName : string; FFamily : Z; FStyle : Z }.

(** The calls the document handle ([*gofpdf.Fpdf], external) receives. *)
Inductive PdfCall : Type :=
| PdfMoveTo (x y : float64)
| PdfLineTo (x y : float64)
| PdfCurveTo (cx cy x y : float64)
| PdfClosePath
| PdfSetAlpha (a : float64) (blendMode : string)
| PdfDrawPath (style : string)
| PdfSetDrawColor (r g b : Z)
| PdfSetFillColor (r g b : Z)
| PdfSetTextColor (r g b : Z)
| PdfSetLineWidth (w : float64)
| PdfSetLineCapStyle (s : string)
| PdfSetLineJoinStyle (s : string)
| PdfSetDashPattern (dash : list float64) (offset : float64)
| PdfAddFont (family style file : string)
| PdfSetFont (family style : string) (size : float64)
| PdfTransformBegin
| PdfTransformEnd.

(** Modelled from the spec: the document handle (section 6), as the
    settings it caches and the sequence of calls it has received. *)
Record Fpdf : Type := mkFpdf {
  pdfAlpha : float64;
  pdfBlendMode : string;
  pdfFontSize : float64;
  pdfFont : string * string;
  pdfDash : list float64 * float64;
  pdfCalls : list PdfCall
}.

(** The methods of the document handle used below. *)
Module Pdf.

Definition call (c : PdfCall) (p : Fpdf) : Fpdf :=
  mkFpdf (pdfAlpha p) (pdfBlendMode p) (pdfFontSize p) (pdfFont p) (pdfDash p)
         (pdfCalls p ++ [c]).

Definition GetAlpha (p : Fpdf) : float64 * string := (pdfAlpha p, pdfBlendMode p).

Definition SetAlpha (a : float64) (blendMode : string) (p : Fpdf) : Fpdf :=
  call (PdfSetAlpha a blendMode)
    (mkFpdf a blendMode (pdfFontSize p) (pdfFont p) (pdfDash p) (pdfCalls p)).

Definition DrawPath (style : string) : Fpdf -> Fpdf := call (PdfDrawPath style).

Definition SetDashPattern (dash : list float64) (offset : float64) (p : Fpdf) : Fpdf :=
  call (PdfSetDashPattern dash offset)
    (mkFpdf (pdfAlpha p) (pdfBlendMode p) (pdfFontSize p) (pdfFont p) (dash, offset)
            (pdfCalls p)).

Definition AddFont (family style file : string) : Fpdf -> Fpdf :=
  call (PdfAddFont family style file).

Definition SetFont (family style : string) (size : float64) (p : Fpdf) : Fpdf :=
  call (PdfSetFont family style size)
    (mkFpdf (pdfAlpha p) (pdfBlendMode p) size (family, style) (pdfDash p)
            (pdfCalls p)).

Definition SetDrawColor (r g b : Z) : Fpdf -> Fpdf := call (PdfSetDrawColor r g b).
Definition SetFillColor (r g b : Z) : Fpdf -> Fpdf := call (PdfSetFillColor r g b).
Definition SetTextColor (r g b : Z) : Fpdf -> Fpdf := call (PdfSetTextColor r g b).
Definition SetLineWidth (w : float64) : Fpdf -> Fpdf := call (PdfSetLineWidth w).
Definition SetLineCapStyle (s : string) : Fpdf -> Fpdf := call (PdfSetLineCapStyle s).
Definition SetLineJoinStyle (s : string) : Fpdf -> Fpdf := call (PdfSetLineJoinStyle s).
Definition TransformBegin : Fpdf -> Fpdf := call PdfTransformBegin.
Definition TransformEnd : Fpdf -> Fpdf := call PdfTransformEnd.

End Pdf.

(** [draw2d.ContextStack]: one drawing state.  The transform matrix is
    left out: no operation below reads it. *)
Record ContextStack : Type := mkContextStack {
  FontSize : float64;
  Scale : float64;
  CFont : option Font;
  CFontData : FontData;
  LineWidth : float64;
  StrokeColor : Color;
  FillColor : Color;
  CFillRule : FillRule;
  CCap : Cap;
  CJoin : Join;
  Dash : list float64;
  DashOffset : float64;
  Path : PathStorage
}.

(** What [log.Println] has printed, by call site. *)
Inductive LogEntry : Type :=
| LogFontError (e : error)
| LogGlyphError (e : error).

(** [GraphicContext]: the current state and the saved ones (the
    [Previous] chain of [StackGraphicContext], innermost first), the
    document handle, the glyph buffer and the resolution. *)
Record GraphicContext : Type := mkGC {
  Current : ContextStack;
  Saved : list ContextStack;
  pdf : Fpdf;
  glyphBuf : GlyphBuf;
  DPI : Z;
  logged : list LogEntry
}.

Definition withCurrent (c : ContextStack) (gc : GraphicContext) : GraphicContext :=
  mkGC c (Saved gc) (pdf gc) (glyphBuf gc) (DPI gc) (logged gc).

Definition withPdf (p : Fpdf) (gc : GraphicContext) : GraphicContext :=
  mkGC (Current gc) (Saved gc) p (glyphBuf gc) (DPI gc) (logged gc).

Definition withGlyphBuf (g : GlyphBuf) (gc : GraphicContext) : GraphicContext :=
  mkGC (Current gc) (Saved gc) (pdf gc) g (DPI gc) (logged gc).

Definition logPrintln (e : LogEntry) (gc : GraphicContext) : GraphicContext :=
  mkGC (Current gc) (Saved gc) (pdf gc) (glyphBuf gc) (DPI gc) (logged gc ++ [e]).

Definition withPath (p : PathStorage) (c : ContextStack) : ContextStack :=
  mkContextStack (FontSize c) (Scale c) (CFont c) (CFontData c) (LineWidth c)
    (StrokeColor c) (FillColor c) (CFillRule c) (CCap c) (CJoin c) (Dash c)
    (DashOffset c) p.

(** Modelled from the spec: the path-building methods of
    [StackGraphicContext], which append one segment to the current path. *)
Definition appendSegment (s : Segment) (gc : GraphicContext) : GraphicContext :=
  withCurrent (withPath (Path (Current gc) ++ [s]) (Current gc)) gc.

Definition MoveTo (x y : float64) : GraphicContext -> GraphicContext :=
  appendSegment (SegMoveTo x y).

Definition LineTo (x y : float64) : GraphicContext -> GraphicContext :=
  appendSegment (SegLineTo x y).

Definition QuadCurveTo (cx cy x y : float64) : GraphicContext -> GraphicContext :=
  appendSegment (SegQuadCurveTo cx cy x y).

(** ** Contour tracer *)

Definition pointToF64Point (p : Point) : float64 * float64 :=
  (fUnitsToFloat64 (X p), F64.neg (fUnitsToFloat64 (Y p))).

(** [p.Flags&0x01 != 0] *)
Definition onCurve (p : Point) : bool := negb (Z.land (Flags p) 1 =? 0).

(** The loop variables [q0X, q0Y, on0] of [drawContour]. *)
Record Tracer : Type := mkTracer { q0X : float64; q0Y : float64; on0 : bool }.

(** One iteration of the loop of [drawContour]. *)
Definition contourStep (dx dy : float64) (st : GraphicContext * Tracer) (p : Point)
  : GraphicContext * Tracer :=
  let '(gc, t) := st in
  let '(qX, qY) := pointToF64Point p in
  let on := onCurve p in
  let gc' :=
    if on then
      if on0 t then LineTo (F64.add qX dx) (F64.add qY dy) gc
      else QuadCurveTo (F64.add (q0X t) dx) (F64.add (q0Y t) dy)
                       (F64.add qX dx) (F64.add qY dy) gc
    else
      if on0 t then gc
      else
        let midX := F64.div (F64.add (q0X t) qX) (F64.of_int 2) in
        let midY := F64.div (F64.add (q0Y t) qY) (F64.of_int 2) in
        QuadCurveTo (F64.add (q0X t) dx) (F64.add (q0Y t) dy)
                    (F64.add midX dx) (F64.add midY dy) gc in
  (gc', mkTracer qX qY on).

(** The end of [drawContour]: the contour is closed back to its start. *)
Definition closeContour (startX startY dx dy : float64) (st : GraphicContext * Tracer)
  : GraphicContext :=
  let '(gc, t) := st in
  if on0 t then LineTo (F64.add startX dx) (F64.add startY dy) gc
  else QuadCurveTo (F64.add (q0X t) dx) (F64.add (q0Y t) dy)
                   (F64.add startX dx) (F64.add startY dy) gc.

Definition drawContour (ps : list Point) (dx dy : float64) (gc : GraphicContext)
  : GraphicContext :=
  match ps with
  | [] => gc
  | p0 :: rest =>
      let '(startX, startY) := pointToF64Point p0 in
      let gc1 := MoveTo (F64.add startX dx) (F64.add startY dy) gc in
      closeContour startX startY dx dy
        (fold_left (contourStep dx dy) rest (gc1, mkTracer startX startY true))
  end.

(** ** Glyph layout *)

(** The result of a call that may end in a Go run-time panic. *)
Inductive Outcome (A : Type) : Type :=
| Returns (a : A) (gc : GraphicContext)
| Panics.

Arguments Returns {A} a gc.
Arguments Panics {A}.

(** The slice expression [l[lo:hi]]; [None] is the panic Go raises when the
    bounds are out of range (lists stand for slices filled to capacity). *)
Definition slice {A : Type} (l : list A) (lo hi : Z) : option (list A) :=
  if (0 <=? lo) && (lo <=? hi) && (hi <=? Z.of_nat (List.length l))
  then Some (firstn (Z.to_nat (hi - lo)) (skipn (Z.to_nat lo) l))
  else None.

(** The loop of [drawGlyph] over the end offsets, from offset [e0]. *)
Fixpoint drawContours (points : list Point) (ends : list Z) (e0 : Z)
    (dx dy : float64) (gc : GraphicContext) : option GraphicContext :=
  match ends with
  | [] => Some gc
  | e1 :: ends' =>
      match slice points e0 e1 with
      | Some ps => drawContours points ends' e1 dx dy (drawContour ps dx dy gc)
      | None => None
      end
  end.

(** [drawGlyph]; loading through a nil font dereferences it. *)
Definition drawGlyph (glyph : Index) (dx dy : float64) (gc : GraphicContext)
  : Outcome (option error) :=
  match CFont (Current gc) with
  | None => Panics
  | Some font =>
      match FLoad font (F64.to_int32 (Scale (Current gc))) glyph with
      | inl err => Returns (Some err) gc
      | inr buf =>
          match drawContours (GPoint buf) (GEnd buf) 0 dx dy (withGlyphBuf buf gc) with
          | Some gc' => Returns None gc'
          | None => Panics
          end
      end
  end.

Definition loadCurrentFont (gc : GraphicContext) : option Font * option error :=
  (CFont (Current gc), None).

(** The loop of [CreateStringPath] over the code points of the string, with
    its variables [x], [prev] and [hasPrev]; [font] is the pointer
    [loadCurrentFont] returned, nil when [None]. *)
Fixpoint layoutLoop (font : option Font) (rs : list rune) (startx x y : float64)
    (prev : Index) (hasPrev : bool) (gc : GraphicContext) : Outcome float64 :=
  match rs with
  | [] => Returns (F64.sub x startx) gc
  | r :: rs' =>
      match font with
      | None => Panics
      | Some f =>
          let index := FIndex f r in
          let x1 :=
            if hasPrev
            then F64.add x (fUnitsToFloat64
                   (FKerning f (F64.to_int32 (Scale (Current gc))) prev index))
            else x in
          match drawGlyph index x1 y gc with
          | Panics => Panics
          | Returns (Some err) gc1 =>
              Returns (F64.sub startx x1) (logPrintln (LogGlyphError err) gc1)
          | Returns None gc1 =>
              let x2 := F64.add x1 (fUnitsToFloat64
                   (FAdvanceWidth f (F64.to_int32 (Scale (Current gc1))) index)) in
              layoutLoop font rs' startx x2 y index true gc1
          end
      end
  end.

(** [CreateStringPath]; the string is given by its code points. *)
Definition CreateStringPath (s : list rune) (x y : float64) (gc : GraphicContext)
  : Outcome float64 :=
  match loadCurrentFont gc with
  | (_, Some err) => Returns F64.zero (logPrintln (LogFontError err) gc)
  | (font, None) => layoutLoop font s x x y 0 false gc
  end.

(** ** Draw dispatch *)

(** Modelled from the spec: the path converter of this package
    ([NewPathConverter], [Convert]), which hands the paths to the document
    handle segment by segment (section 4.4, step 2). *)
Definition convertSegment (s : Segment) : PdfCall :=
  match s with
  | SegMoveTo x y => PdfMoveTo x y
  | SegLineTo x y => PdfLineTo x y
  | SegQuadCurveTo cx cy x y => PdfCurveTo cx cy x y
  | SegClose => PdfClosePath
  end.

Definition Convert (paths : list PathStorage) (p : Fpdf) : Fpdf :=
  fold_left (fun p' c => Pdf.call c p') (map convertSegment (List.concat paths)) p.

Definition alphaMax : float64 := F64.of_int 65535.

(** [draw]: [alpha] is the [uint32] alpha channel of the colour. *)
Definition draw (style : string) (alpha : Z) (paths : list PathStorage)
    (gc : GraphicContext) : GraphicContext :=
  let paths := paths ++ [Path (Current gc)] in
  let p1 := Convert paths (pdf gc) in
  let a := F64.div (F64.of_int alpha) alphaMax in
  let '(current, blendMode) := Pdf.GetAlpha p1 in
  let p2 := if negb (F64.eqb a current) then Pdf.SetAlpha a blendMode p1 else p1 in
  withPdf (Pdf.DrawPath style p2) gc.

Definition resetPath (gc : GraphicContext) : GraphicContext :=
  withCurrent (withPath NewPathStorage (Current gc)) gc.

Definition Stroke (paths : list PathStorage) (gc : GraphicContext) : GraphicContext :=
  let alphaS := cA (StrokeColor (Current gc)) in
  resetPath (draw "D" alphaS paths gc).

Definition Fill (paths : list PathStorage) (gc : GraphicContext) : GraphicContext :=
  let style := "F"%string in
  let style :=
    if negb (UseNonZeroWinding (CFillRule (Current gc)))
    then (style ++ "*")%string else style in
  let alphaF := cA (FillColor (Current gc)) in
  resetPath (draw style alphaF paths gc).

Definition FillStroke (paths : list PathStorage) (gc : GraphicContext) : GraphicContext :=
  let rule :=
    if negb (UseNonZeroWinding (CFillRule (Current gc)))
    then "*"%string else EmptyString in
  let alphaS := cA (StrokeColor (Current gc)) in
  let alphaF := cA (FillColor (Current gc)) in
  let gc1 :=
    if alphaS =? alphaF
    then draw ("FD" ++ rule) alphaF paths gc
    else draw "S" alphaS paths (draw ("F" ++ rule) alphaF paths gc) in
  resetPath gc1.

(** ** Drawing strings *)

Definition FillStringAt (text : list rune) (x y : float64) (gc : GraphicContext)
  : Outcome float64 :=
  match CreateStringPath text x y gc with
  | Returns width gc1 => Returns width (Fill [] gc1)
  | Panics => Panics
  end.

Definition FillString (text : list rune) : GraphicContext -> Outcome float64 :=
  FillStringAt text F64.zero F64.zero.

Definition StrokeStringAt (text : list rune) (x y : float64) (gc : GraphicContext)
  : Outcome float64 :=
  CreateStringPath text x y gc.

Definition StrokeString (text : list rune) : GraphicContext -> Outcome float64 :=
  StrokeStringAt text F64.zero F64.zero.

(** ** State stack *)

Definition withFontSize (v : float64) (c : ContextStack) : ContextStack :=
  mkContextStack v (Scale c) (CFont c) (CFontData c) (LineWidth c)
    (StrokeColor c) (FillColor c) (CFillRule c) (CCap c) (CJoin c) (Dash c)
    (DashOffset c) (Path c).

Definition withScale (v : float64) (c : ContextStack) : ContextStack :=
  mkContextStack (FontSize c) v (CFont c) (CFontData c) (LineWidth c)
    (StrokeColor c) (FillColor c) (CFillRule c) (CCap c) (CJoin c) (Dash c)
    (DashOffset c) (Path c).

Definition withFont (v : option Font) (c : ContextStack) : ContextStack :=
  mkContextStack (FontSize c) (Scale c) v (CFontData c) (LineWidth c)
    (StrokeColor c) (FillColor c) (CFillRule c) (CCap c) (CJoin c) (Dash c)
    (DashOffset c) (Path c).

Definition withLineWidth (v : float64) (c : ContextStack) : ContextStack :=
  mkContextStack (FontSize c) (Scale c) (CFont c) (CFontData c) v
    (StrokeColor c) (FillColor c) (CFillRule c) (CCap c) (CJoin c) (Dash c)
    (DashOffset c) (Path c).

Definition withStrokeColor (v : Color) (c : ContextStack) : ContextStack :=
  mkContextStack (FontSize c) (Scale c) (CFont c) (CFontData c) (LineWidth c)
    v (FillColor c) (CFillRule c) (CCap c) (CJoin c) (Dash c)
    (DashOffset c) (Path c).

Definition withFillColor (v : Color) (c : ContextStack) : ContextStack :=
  mkContextStack (FontSize c) (Scale c) (CFont c) (CFontData c) (LineWidth c)
    (StrokeColor c) v (CFillRule c) (CCap c) (CJoin c) (Dash c)
    (DashOffset c) (Path c).

Definition withFillRule (v : FillRule) (c : ContextStack) : ContextStack :=
  mkContextStack (FontSize c) (Scale c) (CFont c) (CFontData c) (LineWidth c)
    (StrokeColor c) (FillColor c) v (CCap c) (CJoin c) (Dash c)
    (DashOffset c) (Path c).

Definition withCap (v : Cap) (c : ContextStack) : ContextStack :=
  mkContextStack (FontSize c) (Scale c) (CFont c) (CFontData c) (LineWidth c)
    (StrokeColor c) (FillColor c) (CFillRule c) v (CJoin c) (Dash c)
    (DashOffset c) (Path c).

Definition withJoin (v : Join) (c : ContextStack) : ContextStack :=
  mkContextStack (FontSize c) (Scale c) (CFont c) (CFontData c) (LineWidth c)
    (StrokeColor c) (FillColor c) (CFillRule c) (CCap c) v (Dash c)
    (DashOffset c) (Path c).

Definition withDash (d : list float64) (o : float64) (c : ContextStack) : ContextStack :=
  mkContextStack (FontSize c) (Scale c) (CFont c) (CFontData c) (LineWidth c)
    (StrokeColor c) (FillColor c) (CFillRule c) (CCap c) (CJoin c) d o (Path c).

(** Modelled from the spec: the setters of [StackGraphicContext], which
    store their argument in the current state, and its [Save] and
    [Restore], which push a copy of the current state and pop it
    (section 4.5).  Popping an empty stack is left without effect. *)
Module Stack.

Definition SetStrokeColor (c : Color) (gc : GraphicContext) : GraphicContext :=
  withCurrent (withStrokeColor c (Current gc)) gc.

Definition SetFillColor (c : Color) (gc : GraphicContext) : GraphicContext :=
  withCurrent (withFillColor c (Current gc)) gc.

Definition SetFillRule (f : FillRule) (gc : GraphicContext) : GraphicContext :=
  withCurrent (withFillRule f (Current gc)) gc.

Definition SetLineWidth (w : float64) (gc : GraphicContext) : GraphicContext :=
  withCurrent (withLineWidth w (Current gc)) gc.

Definition SetLineCap (c : Cap) (gc : GraphicContext) : GraphicContext :=
  withCurrent (withCap c (Current gc)) gc.

Definition SetLineJoin (j : Join) (gc : GraphicContext) : GraphicContext :=
  withCurrent (withJoin j (Current gc)) gc.

Definition SetLineDash (d : list float64) (o : float64) (gc : GraphicContext)
  : GraphicContext :=
  withCurrent (withDash d o (Current gc)) gc.

Definition Save (gc : GraphicContext) : GraphicContext :=
  mkGC (Current gc) (Current gc :: Saved gc) (pdf gc) (glyphBuf gc) (DPI gc)
       (logged gc).

Definition Restore (gc : GraphicContext) : GraphicContext :=
  match Saved gc with
  | [] => gc
  | c :: rest => mkGC c rest (pdf gc) (glyphBuf gc) (DPI gc) (logged gc)
  end.

End Stack.

(** [c255 = 255.0 / 65535.0], the constant rounded to float64. *)
Definition c255 : float64 := F64.div (F64.of_int 255) (F64.of_int 65535).

Definition rgb (c : Color) : Z * Z * Z :=
  (F64.to_int (F64.mul (F64.of_int (cR c)) c255),
   F64.to_int (F64.mul (F64.of_int (cG c)) c255),
   F64.to_int (F64.mul (F64.of_int (cB c)) c255)).

(** [recalc]: [64.0 / 72.0] is a constant, rounded once. *)
Definition recalc (gc : GraphicContext) : GraphicContext :=
  withCurrent
    (withScale
       (F64.div
          (F64.mul (F64.mul (FontSize (Current gc)) (F64.of_int (DPI gc)))
                   (F64.div (F64.of_int 64) (F64.of_int 72)))
          (F64.of_int 3))
       (Current gc))
    gc.

Definition SetDPI (dpi : Z) (gc : GraphicContext) : GraphicContext :=
  recalc (mkGC (Current gc) (Saved gc) (pdf gc) (glyphBuf gc) dpi (logged gc)).

Definition SetStrokeColor (c : Color) (gc : GraphicContext) : GraphicContext :=
  let gc := Stack.SetStrokeColor c gc in
  let '(r, g, b) := rgb c in
  withPdf (Pdf.SetDrawColor r g b (pdf gc)) gc.

Definition SetFillColor (c : Color) (gc : GraphicContext) : GraphicContext :=
  let gc := Stack.SetFillColor c gc in
  let '(r, g, b) := rgb c in
  let gc := withPdf (Pdf.SetFillColor r g b (pdf gc)) gc in
  withPdf (Pdf.SetTextColor r g b (pdf gc)) gc.

Definition SetFont (font : option Font) (gc : GraphicContext) : GraphicContext :=
  withCurrent (withFont font (Current gc)) gc.

Definition SetFontSize (fontSize : float64) (gc : GraphicContext) : GraphicContext :=
  recalc (withCurrent (withFontSize fontSize (Current gc)) gc).

Definition SetLineDash (d : list float64) (o : float64) (gc : GraphicContext)
  : GraphicContext :=
  let gc := Stack.SetLineDash d o gc in
  withPdf (Pdf.SetDashPattern d o (pdf gc)) gc.

Definition SetLineWidth (w : float64) (gc : GraphicContext) : GraphicContext :=
  let gc := Stack.SetLineWidth w gc in
  withPdf (Pdf.SetLineWidth w (pdf gc)) gc.

Definition SetLineCap (c : Cap) (gc : GraphicContext) : GraphicContext :=
  let gc := Stack.SetLineCap c gc in
  withPdf (Pdf.SetLineCapStyle (caps c) (pdf gc)) gc.

Definition SetLineJoin (j : Join) (gc : GraphicContext) : GraphicContext :=
  let gc := Stack.SetLineJoin j gc in
  withPdf (Pdf.SetLineJoinStyle (joins j) (pdf gc)) gc.

(** [SetFillRule] is not overridden: the embedded method is called. *)
Definition SetFillRule : FillRule -> GraphicContext -> GraphicContext :=
  Stack.SetFillRule.

Definition Save (gc : GraphicContext) : GraphicContext :=
  let gc := Stack.Save gc in
  withPdf (Pdf.TransformBegin (pdf gc)) gc.

(** [Restore]; [c] is the pointer [gc.Current], so each field is read when
    its setter is called. *)
Definition Restore (gc : GraphicContext) : GraphicContext :=
  let gc := withPdf (Pdf.TransformEnd (pdf gc)) gc in
  let gc := Stack.Restore gc in
  let gc := SetFontSize (FontSize (Current gc)) gc in
  let gc := SetLineWidth (LineWidth (Current gc)) gc in
  let gc := SetStrokeColor (StrokeColor (Current gc)) gc in
  let gc := SetFillColor (FillColor (Current gc)) gc in
  let gc := SetFillRule (CFillRule (Current gc)) gc in
  let gc := SetLineCap (CCap (Current gc)) gc in
  let gc := SetLineJoin (CJoin (Current gc)) gc in
  gc.

(** ** Auxiliary definitions for the statements *)

(** The current path extended by the segments [segs]. *)
Definition emit (segs : list Segment) (gc : GraphicContext) : GraphicContext :=
  withCurrent (withPath (Path (Current gc) ++ segs) (Current gc)) gc.

(** A glyph point in pixel space, placed at the offset [(dx, dy)]. *)
Definition placedX (dx : float64) (p : Point) : float64 :=
  F64.add (fst (pointToF64Point p)) dx.

Definition placedY (dy : float64) (p : Point) : float64 :=
  F64.add (snd (pointToF64Point p)) dy.

(** The implied on-curve point between two off-curve points. *)
Definition midX (a b : Point) : float64 :=
  F64.div (F64.add (fst (pointToF64Point a)) (fst (pointToF64Point b))) (F64.of_int 2).

Definition midY (a b : Point) : float64 :=
  F64.div (F64.add (snd (pointToF64Point a)) (snd (pointToF64Point b))) (F64.of_int 2).

(** The tracer state after the point [p] has been processed. *)
Definition tracerAt (p : Point) : Tracer :=
  mkTracer (fst (pointToF64Point p)) (snd (pointToF64Point p)) (onCurve p).

Definition isPathCall (c : PdfCall) : bool :=
  match c with
  | PdfMoveTo _ _ | PdfLineTo _ _ | PdfCurveTo _ _ _ _ | PdfClosePath => true
  | _ => false
  end.

Definition isDrawCall (c : PdfCall) : bool :=
  match c with PdfDrawPath _ => true | _ => false end.

(** The draw commands among [calls], each with the alpha the handle holds
    when it is issued; [a] is the alpha the handle holds before [calls]. *)
Fixpoint drawsWithAlpha (a : float64) (calls : list PdfCall) : list (string * float64) :=
  match calls with
  | [] => []
  | PdfSetAlpha a' _ :: rest => drawsWithAlpha a' rest
  | PdfDrawPath style :: rest => (style, a) :: drawsWithAlpha a rest
  | _ :: rest => drawsWithAlpha a rest
  end.

(** The alpha [draw] computes from the alpha channel of a colour. *)
Definition alphaOf (alpha : Z) : float64 := F64.div (F64.of_int alpha) alphaMax.

Definition fillRuleSuffix (gc : GraphicContext) : string :=
  if negb (UseNonZeroWinding (CFillRule (Current gc))) then "*"%string else EmptyString.

(** The alpha the handle holds once [draw] has compared the alpha of the
    colour channel [alpha] with the cached value [current]. *)
Definition heldAlpha (alpha : Z) (current : float64) : float64 :=
  if negb (F64.eqb (alphaOf alpha) current) then alphaOf alpha else current.

(** The calls one [draw] issues to a handle [p], for the current path
    [path]. *)
Definition drawCalls (style : string) (alpha : Z) (paths : list PathStorage)
    (path : PathStorage) (p : Fpdf) : list PdfCall :=
  map convertSegment (List.concat (paths ++ [path]))
  ++ (if negb (F64.eqb (alphaOf alpha) (pdfAlpha p))
      then [PdfSetAlpha (alphaOf alpha) (pdfBlendMode p)] else [])
  ++ [PdfDrawPath style].

(** The handle [p] after the calls [calls], none of which is a setter other
    than the alpha update of [draw]. *)
Definition afterDraw (alpha : Z) (calls : list PdfCall) (p : Fpdf) : Fpdf :=
  mkFpdf (heldAlpha alpha (pdfAlpha p)) (pdfBlendMode p) (pdfFontSize p) (pdfFont p)
         (pdfDash p) (pdfCalls p ++ calls).

(** The colour setters of the handle, applied to the channels of [c]. *)
Definition setDrawColorCall (c : Color) : PdfCall :=
  let '(r, g, b) := rgb c in PdfSetDrawColor r g b.

Definition setFillColorCall (c : Color) : PdfCall :=
  let '(r, g, b) := rgb c in PdfSetFillColor r g b.

Definition setTextColorCall (c : Color) : PdfCall :=
  let '(r, g, b) := rgb c in PdfSetTextColor r g b.

(** The end offsets [ends], read from offset [e0], cut [n] points into
    contours without leaving the slice. *)
Fixpoint wellFormedEnds (n e0 : Z) (ends : list Z) : bool :=
  match ends with
  | [] => true
  | e1 :: rest =>
      (0 <=? e0) && (e0 <=? e1) && (e1 <=? n) && wellFormedEnds n e1 rest
  end.

(** The font [f] yields, at the scale [sc], an outline for the glyph of the
    code point [r]. *)
Definition glyphLoads (f : Font) (sc : Z) (r : rune) : Prop :=
  exists buf,
    FLoad f sc (FIndex f r) = inr buf
    /\ wellFormedEnds (Z.of_nat (List.length (GPoint buf))) 0 (GEnd buf) = true.

(** The kerning and advance values, in font units and in the order in
    which [CreateStringPath] adds them to the cursor, for the code points
    [rs] laid out after the glyph [prev] (if [hasPrev]). *)
Fixpoint advances (f : Font) (sc : Z) (rs : list rune) (prev : Index) (hasPrev : bool)
  : list Z :=
  match rs with
  | [] => []
  | r :: rs' =>
      let index := FIndex f r in
      (if hasPrev then [FKerning f sc prev index] else [])
      ++ FAdvanceWidth f sc index :: advances f sc rs' index true
  end.

(** The variables [prev] and [hasPrev] after the code points [rs]. *)
Definition lastIndex (f : Font) (rs : list rune) (prev : Index) : Index :=
  fold_left (fun _ r => FIndex f r) rs prev.

Definition hasPrevAfter (rs : list rune) (hasPrev : bool) : bool :=
  match rs with [] => hasPrev | _ :: _ => true end.

(** The kerning added before the glyph of [r] when it follows [pre]. *)
Definition kerningTo (f : Font) (sc : Z) (pre : list rune) (r : rune) : list Z :=
  if hasPrevAfter pre false
  then [FKerning f sc (lastIndex f pre 0) (FIndex f r)] else [].

(** The cursor after the values [vs] have been converted and added to [x]. *)
Definition cursorAfter (vs : list Z) (x : float64) : float64 :=
  fold_left F64.add (map fUnitsToFloat64 vs) x.

Definition sumZ (vs : list Z) : Z := fold_right Z.add 0 vs.

(** [gc'] is [gc] with segments appended to the current path and another
    glyph in the glyph buffer: what tracing glyphs does to a context. *)
Definition tracedFrom (gc gc' : GraphicContext) : Prop :=
  exists segs buf, gc' = emit segs (withGlyphBuf buf gc).

(** The three public draw operations. *)
Inductive DrawOp : Type := OpStroke | OpFill | OpFillStroke.

Definition runDrawOp (op : DrawOp) : list PathStorage -> GraphicContext -> GraphicContext :=
  match op with
  | OpStroke => Stroke
  | OpFill => Fill
  | OpFillStroke => FillStroke
  end.

(** ** Sample data *)

Definition sampleTriangle : list Point :=
  [mkPoint 0 0 1; mkPoint 640 0 1; mkPoint 320 640 1].

(** A contour with two consecutive off-curve points. *)
Definition sampleBowl : list Point :=
  [mkPoint 0 0 1; mkPoint 64 0 0; mkPoint 64 64 0; mkPoint 0 64 1].

(** A font with the glyphs 65 ("A", advance 10 pixels) and 66 ("B", advance 8
    pixels), a kerning of 2 pixels between them, and no outline for any
    other glyph. *)
Definition sampleFont : Font :=
  mkFont
    (fun r => r)
    (fun _ prev index => if (prev =? 65) && (index =? 66) then 128 else 0)
    (fun _ index => if index =? 65 then 640 else if index =? 66 then 512 else 0)
    (fun _ index =>
       if index =? 65 then inr (mkGlyphBuf sampleTriangle [3])
       else if index =? 66 then inr (mkGlyphBuf sampleBowl [4])
       else inl "truetype: no outline"%string).

Definition black : Color := mkColor 0 0 0 65535.
Definition white : Color := mkColor 65535 65535 65535 65535.
Definition halfRed : Color := mkColor 32768 0 0 32768.

Definition samplePdf : Fpdf :=
  mkFpdf (F64.of_int 1) "Normal" (F64.of_int 12) (EmptyString, EmptyString)
         ([], F64.zero) [].

Definition sampleState : ContextStack :=
  mkContextStack (F64.of_int 10) (F64.of_int 213) (Some sampleFont)
    (mkFontData "luxi" 0 0) (F64.of_int 1) black white FillRuleWinding
    RoundCap RoundJoin [] F64.zero NewPathStorage.

Definition sampleGC : GraphicContext :=
  mkGC sampleState [] samplePdf (mkGlyphBuf [] []) 72 [].

(** The sample context without a font. *)
Definition noFontGC : GraphicContext := SetFont None sampleGC.

(** The sample context with the even-odd fill rule. *)
Definition evenOddGC : GraphicContext := Stack.SetFillRule FillRuleEvenOdd sampleGC.

(** The sample context with a translucent stroke colour. *)
Definition translucentGC : GraphicContext := Stack.SetStrokeColor halfRed sampleGC.

(** The start coordinate 12.2. *)
Definition x12_2 : float64 := F64.div (F64.of_int 122) (F64.of_int 10).

(* ================================================================= *)
(** * Properties *)

(** ** Facts about float64 arithmetic *)

Module F64Facts.
Import F64.

(** The number of binary digits of a mantissa. *)
Lemma digits2_pos_bounds (p : positive) :
  2 ^ (Zpos (digits2_pos p) - 1) <= Zpos p < 2 ^ Zpos (digits2_pos p).
Proof.
  induction p as [p IH|p IH|]; cbn [digits2_pos].
  - rewrite Pos2Z.inj_succ. replace (Z.succ (Zpos (digits2_pos p)) - 1) with (Z.succ (Zpos (digits2_pos p) - 1)) by lia.
    rewrite !Z.pow_succ_r by lia. lia.
  - rewrite Pos2Z.inj_succ. replace (Z.succ (Zpos (digits2_pos p)) - 1) with (Z.succ (Zpos (digits2_pos p) - 1)) by lia.
    rewrite !Z.pow_succ_r by lia. lia.
  - simpl. lia.
Qed.

Lemma digits2_pos_log2 (p : positive) :
  Zpos (digits2_pos p) = Z.log2 (Zpos p) + 1.
Proof.
  pose proof (digits2_pos_bounds p) as H.
  assert (Z.log2 (Zpos p) = Zpos (digits2_pos p) - 1).
  { apply Z.log2_unique; [lia|].
    replace (Z.succ (Zpos (digits2_pos p) - 1)) with (Zpos (digits2_pos p)) by lia. exact H. }
  lia.
Qed.

(** Shifting a mantissa left and right. *)
Lemma shl_iter (m d : positive) : Zpos (Pos.iter xO m d) = Zpos m * 2 ^ Zpos d.
Proof.
  revert m. induction d using Pos.peano_ind; intros m.
  - simpl. lia.
  - rewrite Pos.iter_succ. rewrite Pos2Z.inj_succ, Z.pow_succ_r by lia.
    rewrite Pos2Z.inj_xO, IHd. lia.
Qed.

Lemma iter_pos_nat {A} (f : A -> A) (n : positive) : forall x,
  iter_pos f n x = Nat.iter (Pos.to_nat n) f x.
Proof.
  induction n as [n IH|n IH|]; intros x; cbn [iter_pos].
  - rewrite !IH. rewrite Pos2Nat.inj_xI.
    replace (S (2 * Pos.to_nat n))%nat with (Pos.to_nat n + (Pos.to_nat n + 1))%nat by lia.
    rewrite !Nat.iter_add. simpl. reflexivity.
  - rewrite !IH. rewrite Pos2Nat.inj_xO.
    replace (2 * Pos.to_nat n)%nat with (Pos.to_nat n + Pos.to_nat n)%nat by lia.
    rewrite Nat.iter_add. reflexivity.
  - reflexivity.
Qed.

Lemma shr_1_m (r : shr_record) : 0 <= shr_m r -> shr_m (shr_1 r) = shr_m r / 2.
Proof.
  destruct r as [m r s]. cbn [shr_m]. intros H.
  destruct m as [|[p|p|]|p]; cbn [shr_1 shr_m]; try lia; try reflexivity.
  - apply (Z.div_unique _ _ _ 1); lia.
  - apply (Z.div_unique _ _ _ 0); lia.
Qed.

Lemma shr_iter_m (k : nat) : forall r, 0 <= shr_m r ->
  shr_m (Nat.iter k shr_1 r) = shr_m r / 2 ^ Z.of_nat k.
Proof.
  induction k as [|k IH]; intros r H.
  - simpl. now rewrite Z.div_1_r.
  - rewrite Nat.iter_succ_r, IH.
    + rewrite shr_1_m by exact H. rewrite Nat2Z.inj_succ, Z.pow_succ_r by lia.
      rewrite Z.div_div by lia. reflexivity.
    + rewrite shr_1_m by exact H. apply Z.div_pos; lia.
Qed.

Lemma shr_1_exact (m : Z) : 0 <= m -> m mod 2 = 0 ->
  shr_1 (Build_shr_record m false false) = Build_shr_record (m / 2) false false.
Proof.
  intros H0 H. destruct m as [|[p|p|]|p]; cbn [shr_1 orb]; try lia; try reflexivity.
  - exfalso. rewrite Pos2Z.inj_xI in H.
    rewrite Z.add_comm, Z.mul_comm, Z.mod_add in H by lia. discriminate.
  - f_equal. apply (Z.div_unique _ _ _ 0); lia.
  - discriminate.
Qed.

Lemma shr_iter_exact (k : nat) : forall m, 0 <= m -> m mod 2 ^ Z.of_nat k = 0 ->
  Nat.iter k shr_1 (Build_shr_record m false false)
  = Build_shr_record (m / 2 ^ Z.of_nat k) false false.
Proof.
  induction k as [|k IH]; intros m H0 H.
  - simpl. now rewrite Z.div_1_r.
  - rewrite Nat.iter_succ_r.
    rewrite Nat2Z.inj_succ, Z.pow_succ_r in H |- * by lia.
    assert (Hm2 : m mod 2 = 0).
    { apply Z.mod_divide in H; [|lia]. apply Z.mod_divide; [lia|].
      destruct H as [c Hc]. exists (c * 2 ^ Z.of_nat k). lia. }
    rewrite shr_1_exact by assumption.
    rewrite IH.
    + rewrite Z.div_div by lia. reflexivity.
    + apply Z.div_pos; lia.
    + apply Z.mod_divide in H; [|lia]. apply Z.mod_divide; [lia|].
      destruct H as [c Hc]. exists c. subst m.
      replace (c * (2 * 2 ^ Z.of_nat k)) with ((c * 2 ^ Z.of_nat k) * 2) by lia.
      rewrite Z.div_mul by lia. reflexivity.
Qed.

Lemma pow2_pos (n : Z) : 0 <= n -> 0 < 2 ^ n.
Proof. intros. apply Z.pow_pos_nonneg; lia. Qed.

Lemma fexp_eq e : fexp prec emax e = fexp64 e.
Proof. reflexivity. Qed.

Lemma Zdigits2_pos (m : Z) : 0 < m -> Zdigits2 m = Z.log2 m + 1.
Proof.
  destruct m as [|p|p]; try lia. intros _. apply digits2_pos_log2.
Qed.

Lemma Zdigits2_mul_pow2 (m j : Z) : 0 < m -> 0 <= j ->
  Zdigits2 (m * 2 ^ j) = Zdigits2 m + j.
Proof.
  intros Hm Hj. rewrite !Zdigits2_pos by nia.
  rewrite Z.log2_mul_pow2 by lia. lia.
Qed.

Lemma Zdigits2_div_pow2 (m n : Z) : 0 < m -> 0 <= n -> 2 ^ n <= m ->
  Zdigits2 (m / 2 ^ n) = Zdigits2 m - n.
Proof.
  intros Hm Hn Hle.
  assert (0 < m / 2 ^ n) by (apply Z.div_str_pos; lia).
  rewrite !Zdigits2_pos by lia.
  rewrite <- Z.shiftr_div_pow2 by lia. rewrite Z.log2_shiftr by lia.
  assert (n <= Z.log2 m) by (apply Z.log2_le_pow2; lia). lia.
Qed.

Lemma shr_fexp_noshift (m e : Z) (l : location) :
  fexp64 (Zdigits2 m + e) <= e ->
  shr_fexp prec emax m e l = (shr_record_of_loc m l, e).
Proof.
  intros H. unfold shr_fexp, shr. rewrite fexp_eq.
  destruct (fexp64 (Zdigits2 m + e) - e) eqn:E; try reflexivity. lia.
Qed.

Lemma shr_fexp_shift (m e : Z) (l : location) :
  0 <= m -> e < fexp64 (Zdigits2 m + e) ->
  let n := fexp64 (Zdigits2 m + e) - e in
  exists mrs, shr_fexp prec emax m e l = (mrs, e + n)
    /\ shr_m mrs = m / 2 ^ n
    /\ (l = loc_Exact -> m mod 2 ^ n = 0 -> mrs = Build_shr_record (m / 2 ^ n) false false).
Proof.
  intros Hm H n. unfold shr_fexp, shr. rewrite fexp_eq. fold n.
  destruct n as [|p|p] eqn:E; try lia.
  eexists. split; [reflexivity|]. rewrite iter_pos_nat. split.
  - rewrite shr_iter_m.
    + rewrite positive_nat_Z. destruct l as [|[]]; reflexivity.
    + destruct l as [|[]]; exact Hm.
  - intros -> Hmod. cbn [shr_record_of_loc].
    rewrite <- (positive_nat_Z p) in Hmod |- *. apply shr_iter_exact; assumption.
Qed.

(** Rounding a mantissa that already sits at its canonical exponent. *)
Lemma binary_round_aux_canonical (s : bool) (m : positive) (e : Z) :
  fexp64 (Zpos (digits2_pos m) + e) = e -> e <= emax - prec ->
  binary_round_aux prec emax s (Zpos m) e loc_Exact = S754_finite s m e.
Proof.
  intros Hc He. unfold binary_round_aux.
  rewrite shr_fexp_noshift by (cbn [Zdigits2]; lia).
  cbn [shr_record_of_loc shr_m loc_of_shr_record round_nearest_even].
  rewrite shr_fexp_noshift by (cbn [Zdigits2]; lia).
  cbn [shr_record_of_loc shr_m].
  destruct (e <=? emax - prec) eqn:E; [reflexivity|]. apply Z.leb_gt in E. lia.
Qed.

(** Rounding a mantissa whose excess low bits are all zero. *)
Lemma binary_round_aux_exact_shift (s : bool) (m : positive) (e : Z) :
  let n := fexp64 (Zpos (digits2_pos m) + e) - e in
  0 < n -> Zpos m mod 2 ^ n = 0 -> e + n <= emax - prec ->
  binary_round_aux prec emax s (Zpos m) e loc_Exact
  = S754_finite s (Z.to_pos (Zpos m / 2 ^ n)) (e + n).
Proof.
  intros n Hn Hmod He.
  assert (En : fexp64 (Zpos (digits2_pos m) + e) = e + n) by (unfold n; lia).
  clearbody n.
  assert (Hle : 2 ^ n <= Zpos m).
  { pose proof (pow2_pos n ltac:(lia)) as Hp.
    apply Z.mod_divide in Hmod; [|lia]. apply Z.divide_pos_le; [lia|exact Hmod]. }
  assert (Hq : 0 < Zpos m / 2 ^ n) by (apply Z.div_str_pos; lia).
  unfold binary_round_aux.
  destruct (shr_fexp_shift (Zpos m) e loc_Exact) as [mrs [E [_ Hex]]];
    [lia | cbn [Zdigits2]; lia |].
  cbn [Zdigits2] in E, Hex. rewrite En in E, Hex.
  replace (e + n - e) with n in E, Hex by lia.
  rewrite E, (Hex eq_refl Hmod).
  cbn [shr_m loc_of_shr_record round_nearest_even].
  rewrite shr_fexp_noshift.
  - cbn [shr_record_of_loc shr_m].
    destruct (Zpos m / 2 ^ n) as [|q|q] eqn:Eq; try lia.
    cbn [Z.to_pos].
    destruct (e + n <=? emax - prec) eqn:E'; [reflexivity|]. apply Z.leb_gt in E'. lia.
  - rewrite Zdigits2_div_pow2 by lia. cbn [Zdigits2].
    replace (Zpos (digits2_pos m) - n + (e + n)) with (Zpos (digits2_pos m) + e) by lia.
    lia.
Qed.

Lemma shl_align_fst (m : positive) (e e' : Z) : e' <= e ->
  Zpos (fst (shl_align m e e')) = Zpos m * 2 ^ (e - e').
Proof.
  intros H. unfold shl_align. destruct (e' - e) as [|p|p] eqn:E; cbn [fst].
  - replace (e - e') with 0 by lia. lia.
  - lia.
  - rewrite shl_iter. f_equal. f_equal. lia.
Qed.

Lemma shl_align_snd (m : positive) (e e' : Z) : e' <= e ->
  snd (shl_align m e e') = e'.
Proof.
  intros H. unfold shl_align. destruct (e' - e) as [|p|p] eqn:E; cbn [snd]; lia.
Qed.

Lemma shl_align_ge (m : positive) (e e' : Z) : e <= e' ->
  shl_align m e e' = (m, e).
Proof.
  intros H. unfold shl_align. destruct (e' - e) as [|p|p] eqn:E; try reflexivity; lia.
Qed.

(** A mantissa of at most 53 bits followed by [j] zero bits is rounded to
    the canonical representation of its value, without any error. *)
Lemma binary_round_shift (s : bool) (p : positive) (j e : Z) :
  0 <= j -> Zpos (digits2_pos p) <= 53 ->
  emin <= Zpos (digits2_pos p) + e - 53 <= emax - prec ->
  binary_round prec emax s (Z.to_pos (Zpos p * 2 ^ j)) (e - j) = canon s p e.
Proof.
  intros Hj Hd [Hlo Hhi]. unfold emin in Hlo.
  set (d := Zpos (digits2_pos p)) in *.
  set (e' := d + e - 53).
  assert (Hpj : 0 < Zpos p * 2 ^ j) by (pose proof (pow2_pos j Hj); nia).
  remember (Z.to_pos (Zpos p * 2 ^ j)) as pj eqn:Epj.
  assert (Hpjz : Zpos pj = Zpos p * 2 ^ j) by (subst pj; rewrite Z2Pos.id; lia).
  assert (Hdj : Zpos (digits2_pos pj) = d + j).
  { change (Zpos (digits2_pos pj)) with (Zdigits2 (Zpos pj)). rewrite Hpjz.
    rewrite Zdigits2_mul_pow2 by lia. reflexivity. }
  assert (Hf : fexp64 (Zpos (digits2_pos pj) + (e - j)) = e').
  { rewrite Hdj. unfold fexp64, e'. lia. }
  unfold binary_round. rewrite fexp_eq, Hf. unfold canon. fold d e'.
  destruct (Z_lt_le_dec e' (e - j)) as [Hlt|Hge].
  - (* left shift *)
    pose proof (shl_align_fst pj (e - j) e' ltac:(lia)) as Hm.
    pose proof (shl_align_snd pj (e - j) e' ltac:(lia)) as He.
    destruct (shl_align pj (e - j) e') as [mz ez]. cbn [fst snd] in Hm, He. subst ez.
    assert (Hmz : Zpos mz = Zpos p * 2 ^ (53 - d)).
    { rewrite Hm, Hpjz, <- Z.mul_assoc, <- Z.pow_add_r by lia. f_equal. f_equal. unfold e'. lia. }
    rewrite binary_round_aux_canonical.
    + f_equal. rewrite <- Hmz. reflexivity.
    + change (Zpos (digits2_pos mz)) with (Zdigits2 (Zpos mz)). rewrite Hmz.
      rewrite Zdigits2_mul_pow2 by lia. cbn [Zdigits2]. fold d. unfold fexp64, e'. lia.
    + lia.
  - rewrite shl_align_ge by lia.
    destruct (Z.eq_dec e' (e - j)) as [Heq|Hne].
    + rewrite binary_round_aux_canonical by lia.
      rewrite <- Heq. f_equal. rewrite Epj. f_equal. f_equal. f_equal. unfold e' in Heq. lia.
    + assert (Hn : fexp64 (Zpos (digits2_pos pj) + (e - j)) - (e - j) = e' - e + j) by lia.
      assert (Hsplit : Zpos pj = Zpos p * 2 ^ (53 - d) * 2 ^ (e' - e + j)).
      { rewrite Hpjz, <- Z.mul_assoc, <- Z.pow_add_r by lia. f_equal. f_equal.
        unfold e'. lia. }
      rewrite binary_round_aux_exact_shift; rewrite ?Hn; try lia.
      * replace (e - j + (e' - e + j)) with e' by lia. f_equal.
        rewrite Hsplit, Z.div_mul; [reflexivity|].
        pose proof (pow2_pos (e' - e + j) ltac:(lia)). lia.
      * rewrite Hsplit. apply Z.mod_mul.
        pose proof (pow2_pos (e' - e + j) ltac:(lia)). lia.
Qed.

Lemma digits2_pos_le (p : positive) (n : Z) : Zpos p < 2 ^ n -> Zpos (digits2_pos p) <= n.
Proof.
  intros H. pose proof (digits2_pos_bounds p) as [Hlo _].
  destruct (Z_le_gt_dec (Zpos (digits2_pos p)) n) as [|Hgt]; [assumption|].
  exfalso. assert (2 ^ n <= 2 ^ (Zpos (digits2_pos p) - 1)).
  { destruct (Z_lt_le_dec n 0).
    - rewrite (Z.pow_neg_r 2 n) by lia. apply Z.pow_nonneg. lia.
    - apply Z.pow_le_mono_r; lia. }
  lia.
Qed.

Lemma binary_round_scaled (s : bool) (p q : positive) (j e0 : Z) :
  0 <= j -> Zpos q = Zpos p * 2 ^ j -> Zpos p < 2 ^ 53 ->
  -1021 <= e0 + j <= 900 ->
  binary_round prec emax s q e0 = canon s p (e0 + j).
Proof.
  intros Hj Hq Hp He.
  pose proof (digits2_pos_le p 53 Hp) as Hd.
  assert (1 <= Zpos (digits2_pos p)) by lia.
  replace q with (Z.to_pos (Zpos p * 2 ^ j)) by (rewrite <- Hq; reflexivity).
  replace e0 with (e0 + j - j) at 1 by lia.
  apply binary_round_shift; unfold emin, emax, prec; lia.
Qed.

Lemma dyadic_canonZ (n k : Z) : Z.abs n < 2 ^ 53 -> -900 <= k <= 1021 ->
  dyadic n k = canonZ n k.
Proof.
  intros Hn Hk. unfold dyadic, binary_normalize, canonZ.
  destruct n as [|p|p]; [reflexivity| |];
    (replace (- k) with (- k + 0) at 2 by lia;
     apply binary_round_scaled; [lia | lia | exact Hn | lia]).
Qed.

Lemma normalize_scaled (n j e0 : Z) :
  0 <= j -> Z.abs n < 2 ^ 53 -> -1021 <= e0 + j <= 900 ->
  binary_normalize prec emax (n * 2 ^ j) e0 false = dyadic n (- (e0 + j)).
Proof.
  intros Hj Hn He. pose proof (pow2_pos j Hj) as Hp.
  rewrite dyadic_canonZ by lia. unfold binary_normalize, canonZ.
  destruct n as [|p|p].
  - reflexivity.
  - destruct (Zpos p * 2 ^ j) as [|q|q] eqn:E; try lia.
    replace (- - (e0 + j)) with (e0 + j) by lia.
    apply binary_round_scaled; [lia | lia | exact Hn | lia].
  - destruct (Zneg p * 2 ^ j) as [|q|q] eqn:E; try lia.
    replace (- - (e0 + j)) with (e0 + j) by lia.
    apply binary_round_scaled; [lia | lia | exact Hn | lia].
Qed.

Lemma dyadic_scale (n j k : Z) :
  0 <= j -> Z.abs n < 2 ^ 53 -> -900 <= k <= 1021 ->
  dyadic (n * 2 ^ j) (k + j) = dyadic n k.
Proof.
  intros Hj Hn Hk. unfold dyadic at 1.
  rewrite normalize_scaled by lia. f_equal. lia.
Qed.

Lemma canon_align (s : bool) (p : positive) (k ez : Z) :
  Zpos p < 2 ^ 53 ->
  match canon s p (- k) with
  | S754_finite s' m e =>
      s' = s /\ e = Zpos (digits2_pos p) - k - 53 /\
      (ez <= e -> cond_Zopp s' (Zpos (fst (shl_align m e ez)))
                  = cond_Zopp s (Zpos p) * 2 ^ (- k - ez))
  | _ => False
  end.
Proof.
  intros Hp. unfold canon. pose proof (digits2_pos_le p 53 Hp) as Hd.
  set (d := Zpos (digits2_pos p)) in *.
  split; [reflexivity|]. split; [lia|]. intros Hez.
  rewrite shl_align_fst by exact Hez.
  pose proof (pow2_pos (53 - d) ltac:(lia)) as Hp2.
  rewrite Z2Pos.id by nia.
  assert (E : Zpos p * 2 ^ (53 - d) * 2 ^ (d + - k - 53 - ez) = Zpos p * 2 ^ (- k - ez)).
  { rewrite <- Z.mul_assoc, <- Z.pow_add_r by lia. f_equal. f_equal. lia. }
  destruct s; cbn [cond_Zopp]; lia.
Qed.

(** Adding two dyadic numbers of the same scale is exact as long as the
    sum still fits the mantissa. *)
Lemma add_dyadic (a b k : Z) :
  Z.abs a < 2 ^ 53 -> Z.abs b < 2 ^ 53 -> Z.abs (a + b) < 2 ^ 53 ->
  -900 <= k <= 1021 ->
  SFadd prec emax (dyadic a k) (dyadic b k) = dyadic (a + b) k.
Proof.
  intros Ha Hb Hab Hk.
  rewrite (dyadic_canonZ a), (dyadic_canonZ b) by assumption.
  destruct (Z.eq_dec a 0) as [->|Ha0].
  { cbn [canonZ Z.add]. rewrite dyadic_canonZ by assumption.
    destruct b; reflexivity. }
  destruct (Z.eq_dec b 0) as [->|Hb0].
  { rewrite Z.add_0_r, dyadic_canonZ by assumption. destruct a; try lia; reflexivity. }
  assert (exists sa pa, canonZ a k = canon sa pa (- k) /\ cond_Zopp sa (Zpos pa) = a
                        /\ Zpos pa < 2 ^ 53) as [sa [pa [Ea [Va Pa]]]].
  { destruct a as [|p|p]; try lia; [exists false, p | exists true, p]; repeat split; lia. }
  assert (exists sb pb, canonZ b k = canon sb pb (- k) /\ cond_Zopp sb (Zpos pb) = b
                        /\ Zpos pb < 2 ^ 53) as [sb [pb [Eb [Vb Pb]]]].
  { destruct b as [|p|p]; try lia; [exists false, p | exists true, p]; repeat split; lia. }
  rewrite Ea, Eb.
  pose proof (canon_align sa pa k) as Ca. pose proof (canon_align sb pb k) as Cb.
  destruct (canon sa pa (- k)) as [| | |sx mx ex]; try (exfalso; exact (Ca 0 Pa)).
  destruct (canon sb pb (- k)) as [| | |sy my ey]; try (exfalso; exact (Cb 0 Pb)).
  cbn [SFadd].
  destruct (Ca (Z.min ex ey) Pa) as [_ [Eex Xa]].
  destruct (Cb (Z.min ex ey) Pb) as [_ [Eey Xb]].
  rewrite Xa, Xb by lia. rewrite Va, Vb, <- Z.mul_add_distr_r.
  pose proof (digits2_pos_le pa 53 Pa). pose proof (digits2_pos_le pb 53 Pb).
  rewrite normalize_scaled by lia. f_equal. lia.
Qed.

(** ** The shape of every rounded result *)

Lemma Zdigits2_bounds (m : Z) : 0 < m ->
  2 ^ (Zdigits2 m - 1) <= m < 2 ^ Zdigits2 m.
Proof.
  destruct m as [|p|p]; try lia. intros _. apply digits2_pos_bounds.
Qed.

Lemma Zdigits2_unique (m d : Z) : 2 ^ (d - 1) <= m < 2 ^ d -> 0 < m -> Zdigits2 m = d.
Proof.
  intros H Hm. rewrite Zdigits2_pos by exact Hm.
  assert (0 < d).
  { destruct (Z_lt_le_dec 0 d); [assumption|].
    destruct (Z.eq_dec d 0) as [->|]; [simpl in H; lia|].
    rewrite (Z.pow_neg_r 2 d) in H by lia. lia. }
  rewrite (Z.log2_unique m (d - 1)); [lia | lia |].
  replace (Z.succ (d - 1)) with d by lia. exact H.
Qed.

Lemma binary_round_aux_tail (s : bool) (m e : Z) (l : location) :
  binary_round_aux prec emax s m e l
  = round_tail s
      (round_nearest_even (shr_m (fst (shr_fexp prec emax m e l)))
                          (loc_of_shr_record (fst (shr_fexp prec emax m e l))))
      (snd (shr_fexp prec emax m e l)).
Proof.
  unfold binary_round_aux, round_tail.
  destruct (shr_fexp prec emax m e l) as [mrs' e']. reflexivity.
Qed.

Lemma bounded_intro (m : positive) (e : Z) :
  fexp64 (Zpos (digits2_pos m) + e) = e -> e <= emax - prec ->
  bounded prec emax m e = true.
Proof.
  intros Hc He. unfold bounded, canonical_mantissa. rewrite fexp_eq, Hc.
  rewrite Z.eqb_refl. apply Z.leb_le in He. rewrite He. reflexivity.
Qed.

Lemma round_tail_canonical (s : bool) (m : positive) (e : Z) :
  fexp64 (Zpos (digits2_pos m) + e) = e ->
  rounded s (round_tail s (Zpos m) e) /\ is_zero (round_tail s (Zpos m) e) = false.
Proof.
  intros Hc. unfold round_tail.
  rewrite shr_fexp_noshift by (cbn [Zdigits2]; lia).
  cbn [shr_record_of_loc shr_m].
  destruct (e <=? emax - prec) eqn:E; cbn [rounded is_zero].
  - split; [|reflexivity]. split; [reflexivity|].
    apply bounded_intro; [exact Hc | now apply Z.leb_le].
  - split; reflexivity.
Qed.

Lemma round_tail_rounded (s : bool) (m e : Z) :
  0 <= m <= 2 ^ 53 -> emin <= e ->
  (0 < m < 2 ^ 53 -> fexp64 (Zdigits2 m + e) = e) ->
  rounded s (round_tail s m e) /\ (0 < m -> is_zero (round_tail s m e) = false).
Proof.
  intros [Hm0 Hm53] He Hc. unfold emin in He.
  destruct (Z.eq_dec m 0) as [->|Hnz].
  { unfold round_tail. rewrite shr_fexp_noshift by (cbn [Zdigits2]; unfold fexp64; lia).
    cbn [shr_record_of_loc shr_m rounded]. split; [reflexivity | lia]. }
  destruct (Z.eq_dec m (2 ^ 53)) as [->|Hn53].
  { (* the mantissa overflowed to 2 ^ 53: one more shift *)
    assert (Hd : Zdigits2 (2 ^ 53) = 54) by reflexivity.
    unfold round_tail.
    destruct (shr_fexp_shift (2 ^ 53) e loc_Exact) as [mrs [E [_ Hex]]];
      [lia | rewrite Hd; unfold fexp64; lia |].
    rewrite Hd in E, Hex.
    replace (fexp64 (54 + e) - e) with 1 in E, Hex by (unfold fexp64; lia).
    rewrite E, (Hex eq_refl eq_refl).
    change (shr_m {| shr_m := 2 ^ 53 / 2 ^ 1; shr_r := false; shr_s := false |})
      with (Zpos (Z.to_pos (2 ^ 52))).
    destruct (e + 1 <=? emax - prec) eqn:E'; cbn [rounded is_zero].
    - split; [|reflexivity]. split; [reflexivity|].
      apply bounded_intro; [|now apply Z.leb_le].
      change (Zpos (digits2_pos (Z.to_pos (2 ^ 52)))) with 53. unfold fexp64. lia.
    - split; reflexivity. }
  destruct m as [|p|p]; try lia.
  destruct (round_tail_canonical s p e) as [H1 H2]; [apply Hc; lia|].
  split; [exact H1 | intros _; exact H2].
Qed.

Lemma round_nearest_even_range (m : Z) (l : location) :
  m <= round_nearest_even m l <= m + 1.
Proof.
  destruct l as [|[]]; cbn [round_nearest_even]; try lia.
  destruct (Z.even m); lia.
Qed.

(** Every result of [binary_round] is a rounded value of the given sign,
    and it is not a zero unless the exponent was below the smallest one. *)
Lemma binary_round_rounded (s : bool) (p : positive) (e : Z) :
  rounded s (binary_round prec emax s p e)
  /\ (emin <= e -> is_zero (binary_round prec emax s p e) = false).
Proof.
  unfold binary_round. rewrite fexp_eq.
  set (e0 := fexp64 (Zpos (digits2_pos p) + e)).
  assert (exists mz ez, shl_align p e e0 = (mz, ez)
            /\ e0 = fexp64 (Zpos (digits2_pos mz) + ez) /\ ez <= e0
            /\ (emin <= e -> emin <= ez)) as [mz [ez [E [He0 [Hle Hmin]]]]].
  { destruct (Z_lt_le_dec e0 e) as [Hlt|Hge].
    - pose proof (shl_align_fst p e e0 ltac:(lia)) as Hm.
      pose proof (shl_align_snd p e e0 ltac:(lia)) as Hs.
      destruct (shl_align p e e0) as [mz ez]. cbn [fst snd] in Hm, Hs. subst ez.
      exists mz, e0. split; [reflexivity|]. split; [|split; [lia|]].
      + change (Zpos (digits2_pos mz)) with (Zdigits2 (Zpos mz)).
        rewrite Hm, Zdigits2_mul_pow2 by lia. cbn [Zdigits2].
        replace (Zpos (digits2_pos p) + (e - e0) + e0) with (Zpos (digits2_pos p) + e) by lia.
        reflexivity.
      + intros _. unfold e0, fexp64, emin. lia.
    - exists p, e. rewrite shl_align_ge by lia. repeat split; try lia. }
  rewrite E. clear E. unfold emin in Hmin.
  rewrite binary_round_aux_tail.
  destruct (Z.eq_dec ez e0) as [Heq|Hne].
  { (* already canonical *)
    rewrite shr_fexp_noshift by (cbn [Zdigits2]; lia).
    cbn [fst snd shr_record_of_loc shr_m loc_of_shr_record round_nearest_even].
    destruct (round_tail_canonical s mz ez) as [H1 H2]; [lia|].
    split; [exact H1 | intros _; exact H2]. }
  (* excess bits are shifted out and the mantissa is rounded *)
  set (d := Zpos (digits2_pos mz)) in *.
  set (n := e0 - ez).
  destruct (shr_fexp_shift (Zpos mz) ez loc_Exact) as [mrs [E [Hm1 _]]];
    [lia | cbn [Zdigits2]; fold d; lia |].
  cbn [Zdigits2] in E, Hm1. fold d in E, Hm1. rewrite <- He0 in E, Hm1.
  fold n in E, Hm1. rewrite E. cbn [fst snd].
  replace (ez + n) with e0 by (unfold n; lia).
  pose proof (round_nearest_even_range (shr_m mrs) (loc_of_shr_record mrs)) as Hr.
  set (m2 := round_nearest_even (shr_m mrs) (loc_of_shr_record mrs)) in *.
  rewrite Hm1 in Hr.
  pose proof (digits2_pos_bounds mz) as Hb. fold d in Hb.
  assert (Hw : d - n <= 53) by (unfold n; rewrite He0; unfold fexp64; lia).
  assert (He0min : emin <= e0) by (rewrite He0; unfold fexp64, emin; lia).
  pose proof (pow2_pos n ltac:(unfold n; lia)) as Hpn.
  destruct (Z_le_gt_dec (d - n) 0) as [Hw0|Hw1].
  - (* everything is shifted out: the exponent is the smallest one *)
    assert (Hq : Zpos mz / 2 ^ n = 0).
    { apply Z.div_small. split; [lia|].
      apply Z.lt_le_trans with (2 ^ d); [lia|]. apply Z.pow_le_mono_r; lia. }
    rewrite Hq in Hr.
    assert (Hemin : e0 = -1074) by (rewrite He0 in *; unfold fexp64 in *; unfold n in *; lia).
    destruct (round_tail_rounded s m2 e0) as [H1 H2]; [lia | exact He0min | |].
    { intros Hm2. replace m2 with 1 by lia. rewrite Hemin. reflexivity. }
    split; [exact H1|]. intros Hee. exfalso. unfold n, emin in *. lia.
  - (* [d - n] bits remain *)
    assert (Hle2 : 2 ^ n <= Zpos mz).
    { apply Z.le_trans with (2 ^ (d - 1)); [|lia]. apply Z.pow_le_mono_r; lia. }
    assert (Hd1 : Zdigits2 (Zpos mz / 2 ^ n) = d - n).
    { rewrite Zdigits2_div_pow2; [reflexivity | lia | unfold n; lia | exact Hle2]. }
    assert (Hq : 0 < Zpos mz / 2 ^ n) by (apply Z.div_str_pos; lia).
    pose proof (Zdigits2_bounds _ Hq) as Hb1. rewrite Hd1 in Hb1.
    assert (Hp53 : 2 ^ (d - n) <= 2 ^ 53) by (apply Z.pow_le_mono_r; lia).
    destruct (round_tail_rounded s m2 e0) as [H1 H2]; [lia | exact He0min | |].
    { intros Hm2.
      destruct (Z_lt_le_dec m2 (2 ^ (d - n))) as [Hlt|Hge].
      - rewrite (Zdigits2_unique m2 (d - n)) by lia.
        rewrite He0 at 2. fold d. unfold fexp64. unfold n. lia.
      - assert (Em2 : m2 = 2 ^ (d - n)) by lia.
        assert (d - n < 53).
        { destruct (Z.eq_dec (d - n) 53) as [E53|]; [|lia]. rewrite E53 in Em2. lia. }
        rewrite (Zdigits2_unique m2 (d - n + 1)).
        + rewrite He0 in *. unfold fexp64 in *. unfold n in *. lia.
        + replace (d - n + 1 - 1) with (d - n) by lia.
          rewrite Z.pow_add_r by lia. lia.
        + lia. }
    split; [exact H1|]. intros _. apply H2. lia.
Qed.

Lemma shr_fexp_nonneg (m e : Z) (l : location) :
  0 <= m -> 0 <= shr_m (fst (shr_fexp prec emax m e l)).
Proof.
  intros Hm.
  destruct (Z_lt_le_dec e (fexp64 (Zdigits2 m + e))) as [Hlt|Hge].
  - destruct (shr_fexp_shift m e l Hm Hlt) as [mrs [E [Hs _]]].
    rewrite E. cbn [fst]. rewrite Hs. apply Z.div_pos; [lia|].
    apply pow2_pos. lia.
  - rewrite shr_fexp_noshift by exact Hge. cbn [fst].
    destruct l as [|[]]; exact Hm.
Qed.

Lemma binary_round_aux_not_nan (s : bool) (m e : Z) (l : location) :
  0 <= m -> binary_round_aux prec emax s m e l <> S754_nan.
Proof.
  intros Hm. rewrite binary_round_aux_tail. unfold round_tail.
  pose proof (shr_fexp_nonneg m e l Hm) as H1.
  pose proof (round_nearest_even_range (shr_m (fst (shr_fexp prec emax m e l)))
                (loc_of_shr_record (fst (shr_fexp prec emax m e l)))) as H2.
  set (m2 := round_nearest_even _ _) in *.
  pose proof (shr_fexp_nonneg m2 (snd (shr_fexp prec emax m e l)) loc_Exact ltac:(lia)) as H3.
  destruct (shr_fexp prec emax m2 _ loc_Exact) as [mrs e']. cbn [fst] in H3.
  destruct (shr_m mrs) as [|q|q]; try lia; try discriminate.
  destruct (e' <=? emax - prec); discriminate.
Qed.

Lemma rounded_valid (s : bool) (f : spec_float) : rounded s f -> valid f = true.
Proof.
  destruct f; cbn [rounded valid valid_binary]; intros H; try reflexivity.
  exact (proj2 H).
Qed.

Lemma binary_normalize_valid (n e : Z) (sz : bool) :
  valid (binary_normalize prec emax n e sz) = true.
Proof.
  destruct n as [|p|p]; cbn [binary_normalize]; [reflexivity| |];
    eapply rounded_valid; apply binary_round_rounded.
Qed.

Lemma SFadd_valid (x y : spec_float) :
  valid x = true -> valid y = true -> valid (SFadd prec emax x y) = true.
Proof.
  intros Hx Hy.
  destruct x as [sx|sx| |sx mx ex], y as [sy|sy| |sy my ey];
    cbn [SFadd]; try assumption; try reflexivity;
    try (destruct sx, sy; reflexivity).
  apply binary_normalize_valid.
Qed.

Lemma SFsub_valid (x y : spec_float) :
  valid x = true -> valid y = true -> valid (SFsub prec emax x y) = true.
Proof.
  intros Hx Hy.
  destruct x as [sx|sx| |sx mx ex], y as [sy|sy| |sy my ey];
    cbn [SFsub]; try assumption; try reflexivity;
    try (destruct sx, sy; reflexivity).
  apply binary_normalize_valid.
Qed.

(** ** Comparison *)

Lemma bounded_inv (m : positive) (e : Z) : bounded prec emax m e = true ->
  emin <= e /\ Zpos m < 2 ^ 53 /\ (emin < e -> 2 ^ 52 <= Zpos m).
Proof.
  unfold bounded, canonical_mantissa. rewrite fexp_eq. intros H.
  apply andb_prop in H. destruct H as [H _]. apply Z.eqb_eq in H.
  pose proof (digits2_pos_bounds m) as [Hlo Hhi].
  set (d := Zpos (digits2_pos m)) in *. unfold fexp64 in H. unfold emin.
  assert (Hd : d <= 53) by lia.
  split; [lia|]. split.
  - apply Z.lt_le_trans with (2 ^ d); [exact Hhi|]. apply Z.pow_le_mono_r; lia.
  - intros He. assert (d = 53) by lia. subst d.
    replace 52 with (Zpos (digits2_pos m) - 1) by lia. exact Hlo.
Qed.

(** On canonical numbers [SFltb] is the order of the values, here brought
    to the common exponent as the subtraction does. *)
Lemma SFltb_aligned (sx sy : bool) (mx my : positive) (ex ey : Z) :
  bounded prec emax mx ex = true -> bounded prec emax my ey = true ->
  SFltb (S754_finite sx mx ex) (S754_finite sy my ey) = true ->
  cond_Zopp sx (Zpos mx * 2 ^ (ex - Z.min ex ey))
  < cond_Zopp sy (Zpos my * 2 ^ (ey - Z.min ex ey)).
Proof.
  intros Hx Hy. apply bounded_inv in Hx, Hy. unfold emin in *.
  destruct Hx as [Hxe [Hx53 Hx52]], Hy as [Hye [Hy53 Hy52]].
  unfold SFltb, SFcompare.
  pose proof (pow2_pos (ex - Z.min ex ey) ltac:(lia)) as Px.
  pose proof (pow2_pos (ey - Z.min ex ey) ltac:(lia)) as Py.
  destruct sx, sy; cbn [cond_Zopp]; try discriminate; try nia.
  - (* both negative *)
    destruct (Z.compare_spec ex ey) as [E|E|E]; try discriminate.
    + subst ey. rewrite Z.min_id, Z.sub_diag. change (2 ^ 0) with 1.
      rewrite Pos.compare_cont_spec. cbn [Pos.switch_Eq].
      destruct (Pos.compare_spec mx my); cbn [CompOpp]; try discriminate. lia.
    + intros _. rewrite Z.min_r, Z.sub_diag by lia. change (2 ^ 0) with 1.
      assert (2 ^ 1 <= 2 ^ (ex - ey)) by (apply Z.pow_le_mono_r; lia).
      change (2 ^ 1) with 2 in *. nia.
  - (* both positive *)
    destruct (Z.compare_spec ex ey) as [E|E|E]; try discriminate.
    + subst ey. rewrite Z.min_id, Z.sub_diag. change (2 ^ 0) with 1.
      rewrite Pos.compare_cont_spec. cbn [Pos.switch_Eq].
      destruct (Pos.compare_spec mx my); try discriminate. lia.
    + intros _. rewrite Z.min_l, Z.sub_diag by lia. change (2 ^ 0) with 1.
      assert (2 ^ 1 <= 2 ^ (ey - ex)) by (apply Z.pow_le_mono_r; lia).
      change (2 ^ 1) with 2 in *. nia.
Qed.

(** The difference of a number and a greater one is negative: it is never
    rounded to zero. *)
Lemma SFsub_negative (x y : spec_float) :
  valid x = true -> valid y = true ->
  SFltb x y = true -> SFltb (SFsub prec emax x y) (S754_zero false) = true.
Proof.
  intros Hx Hy Hlt.
  destruct x as [sx|sx| |sx mx ex], y as [sy|sy| |sy my ey];
    try discriminate;
    try (destruct sx; try discriminate; reflexivity);
    try (destruct sy; try discriminate; reflexivity);
    try (destruct sx, sy; try discriminate; reflexivity).
  cbn [valid valid_binary] in Hx, Hy.
  pose proof (SFltb_aligned _ _ _ _ _ _ Hx Hy Hlt) as H.
  apply bounded_inv in Hx, Hy. destruct Hx as [Hxe _], Hy as [Hye _].
  cbn [SFsub].
  rewrite !shl_align_fst by lia.
  set (N := cond_Zopp sx (Zpos mx * 2 ^ (ex - Z.min ex ey))
            - cond_Zopp sy (Zpos my * 2 ^ (ey - Z.min ex ey))).
  assert (HN : N < 0) by (unfold N; lia).
  destruct N as [|n|n]; try lia. cbn [binary_normalize].
  destruct (binary_round_rounded true n (Z.min ex ey)) as [H1 H2].
  specialize (H2 ltac:(lia)).
  destruct (binary_round prec emax true n (Z.min ex ey)) as [s|s| |s m e];
    cbn [rounded is_zero] in H1, H2; try discriminate; try contradiction.
  - subst s. reflexivity.
  - destruct H1 as [-> _]. reflexivity.
Qed.

Lemma SFeqb_sym (x y : spec_float) : SFeqb x y = true -> SFeqb y x = true.
Proof.
  unfold SFeqb, SFcompare.
  destruct x as [sx|sx| |sx mx ex], y as [sy|sy| |sy my ey];
    try discriminate; try reflexivity;
    try (destruct sx, sy; try discriminate; reflexivity);
    try (destruct sx; discriminate); try (destruct sy; discriminate).
  destruct sx, sy; try discriminate;
    rewrite (Z.compare_antisym ex ey);
    destruct (Z.compare_spec ex ey); cbn [CompOpp]; try discriminate;
    rewrite !Pos.compare_cont_spec; cbn [Pos.switch_Eq];
    rewrite (Pos.compare_antisym mx my);
    destruct (Pos.compare_spec mx my); cbn [CompOpp]; try discriminate; reflexivity.
Qed.

Lemma SFeqb_refl (x : spec_float) : x <> S754_nan -> SFeqb x x = true.
Proof.
  unfold SFeqb, SFcompare. intros H.
  destruct x as [sx|sx| |sx mx ex]; try reflexivity; try congruence.
  - destruct sx; reflexivity.
  - destruct sx; rewrite Z.compare_refl, Pos.compare_cont_spec, Pos.compare_refl;
      reflexivity.
Qed.

End F64Facts.

(** ** Numeric conversion *)

Section NumericConversion.
Import F64 F64Facts.

Lemma same_eq (x y : float64) : same x y = true -> x = y.
Proof.
  destruct x as [a|a| |a m e], y as [b|b| |b m' e']; cbn [same]; try discriminate.
  - intros H. apply Bool.eqb_prop in H. now subst.
  - intros H. apply Bool.eqb_prop in H. now subst.
  - reflexivity.
  - intros H. apply andb_prop in H. destruct H as [H He].
    apply andb_prop in H. destruct H as [Hs Hm].
    apply Bool.eqb_prop in Hs. apply Pos.eqb_eq in Hm. apply Z.eqb_eq in He.
    now subst.
Qed.

Lemma wrap32_range (z : Z) : - 2 ^ 31 <= wrap32 z < 2 ^ 31.
Proof.
  unfold wrap32. pose proof (Z.mod_pos_bound (z + 2 ^ 31) (2 ^ 32) ltac:(lia)). lia.
Qed.

Lemma wrap32_small (z : Z) : - 2 ^ 31 <= z < 2 ^ 31 -> wrap32 z = z.
Proof.
  intros H. unfold wrap32. rewrite Z.mod_small by lia. lia.
Qed.

(** Dividing a small integer by 256.0 only moves the exponent. *)
Lemma div_256_dyadic (r : Z) : -256 < r < 256 ->
  div (of_int r) (of_int 256) = dyadic r 8.
Proof.
  intros Hr.
  assert (Hall : forallb (fun n => same (div (of_int (Z.of_nat n - 255)) (of_int 256))
                                        (dyadic (Z.of_nat n - 255) 8))
                         (seq 0 511) = true) by (vm_compute; reflexivity).
  rewrite forallb_forall in Hall.
  specialize (Hall (Z.to_nat (r + 255))).
  rewrite Z2Nat.id in Hall by lia.
  replace (r + 255 - 255) with r in Hall by lia.
  apply same_eq, Hall, in_seq. lia.
Qed.

Lemma quot_rem_256 (z : Z) : - 2 ^ 31 <= z < 2 ^ 31 ->
  z = Z.quot z 256 * 2 ^ 8 + Z.rem z 256
  /\ Z.abs (Z.quot z 256) <= 2 ^ 23 /\ -256 < Z.rem z 256 < 256.
Proof.
  intros Hz. pose proof (Z.quot_rem' z 256) as E.
  change (2 ^ 8) with 256.
  destruct (Z_le_gt_dec 0 z) as [Hp|Hn].
  - pose proof (Zquot.Zrem_lt_pos z 256 Hp ltac:(lia)) as Hr.
    change (Z.abs 256) with 256 in Hr. lia.
  - pose proof (Zquot.Zrem_lt_neg z 256 ltac:(lia) ltac:(lia)) as Hr.
    change (Z.abs 256) with 256 in Hr. lia.
Qed.

(** The conversion computes the float64 that is exactly the wrapped value
    of [x << 2] divided by 256. *)
Lemma fUnitsToFloat64_dyadic (x : Z) :
  fUnitsToFloat64 x = dyadic (wrap32 (Z.shiftl x 2)) 8.
Proof.
  unfold fUnitsToFloat64.
  set (scaled := wrap32 (Z.shiftl x 2)).
  pose proof (wrap32_range (Z.shiftl x 2)) as Hs. fold scaled in Hs.
  destruct (quot_rem_256 scaled Hs) as [E [Hq Hr]].
  rewrite div_256_dyadic by exact Hr.
  change (of_int (Z.quot scaled 256)) with (dyadic (Z.quot scaled 256) 0).
  rewrite <- (dyadic_scale (Z.quot scaled 256) 8 0) by lia.
  cbn [Z.add]. unfold add. rewrite add_dyadic by lia.
  now rewrite <- E.
Qed.

Lemma canon_to_Q (s : bool) (p : positive) (k : Z) :
  Zpos p < 2 ^ 53 -> 0 <= k ->
  represents (canon s p (- k)) (Qmake (cond_Zopp s (Zpos p)) (Z.to_pos (2 ^ k))).
Proof.
  intros Hp Hk. pose proof (digits2_pos_le p 53 Hp) as Hd.
  unfold represents, canon, to_Q.
  set (d := Zpos (digits2_pos p)) in *.
  assert (1 <= d) by (unfold d; lia).
  pose proof (pow2_pos (53 - d) ltac:(lia)) as P1.
  pose proof (pow2_pos k Hk) as P2.
  eexists. split; [reflexivity|].
  rewrite Z2Pos.id by nia.
  destruct (d + - k - 53) as [|t|t] eqn:Et; unfold Qeq; cbn [Qnum Qden].
  - rewrite Z2Pos.id by lia. change (2 ^ 0) with 1.
    assert (E : Zpos p * 2 ^ (53 - d) * 2 ^ k = Zpos p).
    { assert (53 - d = 0 /\ k = 0) as [-> ->] by lia. simpl. lia. }
    destruct s; cbn [cond_Zopp]; lia.
  - lia.
  - rewrite Z2Pos.id by lia. rewrite Pos2Z.inj_pow.
    assert (E : Zpos p * 2 ^ (53 - d) * 2 ^ k = Zpos p * 2 ^ Zpos t).
    { rewrite <- Z.mul_assoc, <- Z.pow_add_r by lia. f_equal. f_equal. lia. }
    destruct s; cbn [cond_Zopp]; lia.
Qed.

Lemma dyadic_represents (n k : Z) : Z.abs n < 2 ^ 53 -> 0 <= k <= 1021 ->
  represents (dyadic n k) (Qmake n (Z.to_pos (2 ^ k))).
Proof.
  intros Hn Hk. rewrite dyadic_canonZ by lia.
  destruct n as [|p|p]; cbn [canonZ].
  - exists 0%Q. split; reflexivity.
  - apply (canon_to_Q false p k); lia.
  - apply (canon_to_Q true p k); lia.
Qed.

Lemma dyadic_valid (n k : Z) : valid (dyadic n k) = true.
Proof. apply binary_normalize_valid. Qed.

Lemma fUnitsToFloat64_valid (x : Z) : valid (fUnitsToFloat64 x) = true.
Proof. rewrite fUnitsToFloat64_dyadic. apply dyadic_valid. Qed.

End NumericConversion.

(** C1, as amended.  For every [x], the conversion returns the float64
    that is exactly [scaled / 256], where [scaled] is the [int32] value of
    [x << 2]; its two summands are exactly the truncated quotient and the
    remainder over 256, the remainder taking the sign of [scaled]; and
    whenever [x << 2] does not overflow, that is for [- 2 ^ 29 <= x < 2 ^ 29],
    the result is exactly [x * 4 / 256]. *)
Theorem fUnitsToFloat64_exact (x : Z) :
  let scaled := wrap32 (Z.shiftl x 2) in
  F64.represents (fUnitsToFloat64 x) (scaled # 256)
  /\ F64.represents (F64.of_int (Z.quot scaled 256)) (Z.quot scaled 256 # 1)
  /\ F64.represents (F64.div (F64.of_int (Z.rem scaled 256)) (F64.of_int 256))
                    (Z.rem scaled 256 # 256)
  /\ scaled = 256 * Z.quot scaled 256 + Z.rem scaled 256
  /\ 0 <= Z.rem scaled 256 * scaled
  /\ Z.abs (Z.rem scaled 256) < 256
  /\ (- 2 ^ 29 <= x < 2 ^ 29 -> F64.represents (fUnitsToFloat64 x) (x * 4 # 256)).
Proof.
  intros scaled.
  pose proof (wrap32_range (Z.shiftl x 2)) as Hs. fold scaled in Hs.
  destruct (quot_rem_256 scaled Hs) as [E [Hq Hr]].
  assert (Hmain : F64.represents (fUnitsToFloat64 x) (scaled # 256)).
  { rewrite fUnitsToFloat64_dyadic. fold scaled.
    apply (dyadic_represents scaled 8); lia. }
  split; [exact Hmain|]. split; [|split; [|split; [|split; [|split]]]].
  - change (F64.of_int (Z.quot scaled 256)) with (F64.dyadic (Z.quot scaled 256) 0).
    apply (dyadic_represents (Z.quot scaled 256) 0); lia.
  - rewrite div_256_dyadic by exact Hr.
    apply (dyadic_represents (Z.rem scaled 256) 8); lia.
  - apply Z.quot_rem'.
  - pose proof (Z.rem_sign_mul scaled 256 ltac:(lia)). lia.
  - lia.
  - intros Hx. replace (x * 4) with scaled; [exact Hmain|].
    unfold scaled. rewrite Z.shiftl_mul_pow2 by lia. change (2 ^ 2) with 4.
    apply wrap32_small. lia.
Qed.

Lemma fUnitsToFloat64_exact_witness :
  - 2 ^ 29 <= -3 < 2 ^ 29 /\ F64.represents (fUnitsToFloat64 (-3)) (-3 * 4 # 256).
Proof.
  split; [lia|]. apply (fUnitsToFloat64_exact (-3)). lia.
Defined.

(** C1 as stated fails at [x = 2 ^ 29], a non-negative [int32]: [x << 2]
    wraps to [- 2 ^ 31] and the conversion returns [-8388608]. *)
Lemma fUnitsToFloat64_overflow :
  0 <= 2 ^ 29 < 2 ^ 31
  /\ fUnitsToFloat64 (2 ^ 29) = F64.of_int (-8388608)
  /\ ~ F64.represents (fUnitsToFloat64 (2 ^ 29)) (2 ^ 29 * 4 # 256).
Proof.
  split; [lia|]. split; [vm_compute; reflexivity|].
  intros [q [E H]]. vm_compute in E. injection E as <-.
  vm_compute in H. discriminate.
Qed.

(** ** Contour tracer *)

Lemma emit_nil (gc : GraphicContext) : emit [] gc = gc.
Proof.
  destruct gc as [c sv p g d l]; destruct c; unfold emit, withCurrent, withPath; simpl.
  now rewrite app_nil_r.
Qed.

Lemma emit_emit (s1 s2 : list Segment) (gc : GraphicContext) :
  emit s2 (emit s1 gc) = emit (s1 ++ s2) gc.
Proof.
  unfold emit, withCurrent, withPath; simpl. now rewrite app_assoc.
Qed.

Lemma appendSegment_emit (s : Segment) (gc : GraphicContext) :
  appendSegment s gc = emit [s] gc.
Proof. reflexivity. Qed.

Lemma pointToF64Point_eta (p : Point) :
  pointToF64Point p = (fst (pointToF64Point p), snd (pointToF64Point p)).
Proof. reflexivity. Qed.

(** The four cases of one loop iteration. *)
Lemma contourStep_on_on dx dy gc t p :
  onCurve p = true -> on0 t = true ->
  contourStep dx dy (gc, t) p
  = (emit [SegLineTo (placedX dx p) (placedY dy p)] gc, tracerAt p).
Proof.
  intros Hp Ht. unfold contourStep, tracerAt. simpl. now rewrite Hp, Ht.
Qed.

Lemma contourStep_on_off dx dy gc t p :
  onCurve p = true -> on0 t = false ->
  contourStep dx dy (gc, t) p
  = (emit [SegQuadCurveTo (F64.add (q0X t) dx) (F64.add (q0Y t) dy)
                          (placedX dx p) (placedY dy p)] gc, tracerAt p).
Proof.
  intros Hp Ht. unfold contourStep, tracerAt. simpl. now rewrite Hp, Ht.
Qed.

Lemma contourStep_off_on dx dy gc t p :
  onCurve p = false -> on0 t = true ->
  contourStep dx dy (gc, t) p = (gc, tracerAt p).
Proof.
  intros Hp Ht. unfold contourStep, tracerAt. simpl. now rewrite Hp, Ht.
Qed.

Lemma contourStep_off_off dx dy gc t p :
  onCurve p = false -> on0 t = false ->
  contourStep dx dy (gc, t) p
  = (emit [SegQuadCurveTo (F64.add (q0X t) dx) (F64.add (q0Y t) dy)
             (F64.add (F64.div (F64.add (q0X t) (fst (pointToF64Point p))) (F64.of_int 2)) dx)
             (F64.add (F64.div (F64.add (q0Y t) (snd (pointToF64Point p))) (F64.of_int 2)) dy)]
          gc, tracerAt p).
Proof.
  intros Hp Ht. unfold contourStep, tracerAt. simpl. now rewrite Hp, Ht.
Qed.

(** After at least one iteration the tracer holds the last point. *)
Lemma contourStep_tracer dx dy st p : snd (contourStep dx dy st p) = tracerAt p.
Proof. destruct st as [gc t]. reflexivity. Qed.

Lemma fold_contourStep_last dx dy pre a st :
  snd (fold_left (contourStep dx dy) (pre ++ [a]) st) = tracerAt a.
Proof.
  rewrite fold_left_app. cbn [fold_left]. apply contourStep_tracer.
Qed.

(** The loop over points that are all on-curve, entered on-curve. *)
Lemma fold_contourStep_all_on dx dy ps : forall gc t,
  Forall (fun p => onCurve p = true) ps -> on0 t = true ->
  exists t',
    fold_left (contourStep dx dy) ps (gc, t)
    = (emit (map (fun p => SegLineTo (placedX dx p) (placedY dy p)) ps) gc, t')
    /\ on0 t' = true.
Proof.
  induction ps as [|p ps IH]; intros gc t Hall Ht.
  - exists t. simpl. now rewrite emit_nil.
  - inversion Hall as [|? ? Hp Hps]; subst. cbn [fold_left].
    rewrite (contourStep_on_on dx dy gc t p Hp Ht).
    destruct (IH (emit [SegLineTo (placedX dx p) (placedY dy p)] gc) (tracerAt p) Hps Hp)
      as [t' [E Ht']].
    exists t'. split; [|exact Ht']. rewrite E, emit_emit. reflexivity.
Qed.

(** C4. A non-empty contour whose points are all on-curve is traced as one
    move-to at its first point, one line-to for each of the other points in
    order and one line-to back to the first point, every coordinate being
    the pixel coordinate plus the offset [(dx, dy)]; nothing else of the
    context changes and no curve segment is emitted. *)
Theorem drawContour_all_on_curve (p0 : Point) (rest : list Point)
    (dx dy : float64) (gc : GraphicContext) :
  Forall (fun p => onCurve p = true) (p0 :: rest) ->
  drawContour (p0 :: rest) dx dy gc
  = emit ([SegMoveTo (placedX dx p0) (placedY dy p0)]
          ++ map (fun p => SegLineTo (placedX dx p) (placedY dy p)) rest
          ++ [SegLineTo (placedX dx p0) (placedY dy p0)]) gc.
Proof.
  intros Hall. inversion Hall as [|? ? _ Hrest]; subst.
  unfold drawContour. rewrite (pointToF64Point_eta p0).
  destruct (fold_contourStep_all_on dx dy rest
              (MoveTo (F64.add (fst (pointToF64Point p0)) dx)
                      (F64.add (snd (pointToF64Point p0)) dy) gc)
              (mkTracer (fst (pointToF64Point p0)) (snd (pointToF64Point p0)) true)
              Hrest eq_refl) as [t' [E Ht']].
  rewrite E. unfold closeContour. rewrite Ht'.
  unfold LineTo, MoveTo. rewrite !appendSegment_emit, !emit_emit.
  reflexivity.
Qed.

Lemma drawContour_all_on_curve_witness :
  drawContour sampleTriangle F64.zero F64.zero sampleGC
  = emit ([SegMoveTo (placedX F64.zero (mkPoint 0 0 1)) (placedY F64.zero (mkPoint 0 0 1))]
          ++ map (fun p => SegLineTo (placedX F64.zero p) (placedY F64.zero p))
                 [mkPoint 640 0 1; mkPoint 320 640 1]
          ++ [SegLineTo (placedX F64.zero (mkPoint 0 0 1)) (placedY F64.zero (mkPoint 0 0 1))])
         sampleGC.
Proof.
  apply (drawContour_all_on_curve (mkPoint 0 0 1) [mkPoint 640 0 1; mkPoint 320 640 1]).
  repeat constructor.
Defined.

(** The empty contour is a no-op. *)
Lemma drawContour_nil dx dy gc : drawContour [] dx dy gc = gc.
Proof. reflexivity. Qed.

(** C5. In any contour, a point [b] flagged off-curve that follows a point
    [a] of the loop flagged off-curve makes the tracer emit exactly one
    quadratic curve, whose control point is [a] and whose end point is the
    midpoint of [a] and [b] (both placed at the offset), and leaves [b] as
    the pending control point for the rest of the contour. *)
Theorem drawContour_off_off_midpoint (p0 : Point) (pre : list Point) (a b : Point)
    (post : list Point) (dx dy : float64) (gc : GraphicContext) :
  onCurve a = false -> onCurve b = false ->
  let startX := fst (pointToF64Point p0) in
  let startY := snd (pointToF64Point p0) in
  let before :=
    fst (fold_left (contourStep dx dy) (pre ++ [a])
           (MoveTo (F64.add startX dx) (F64.add startY dy) gc,
            mkTracer startX startY true)) in
  drawContour (p0 :: pre ++ a :: b :: post) dx dy gc
  = closeContour startX startY dx dy
      (fold_left (contourStep dx dy) post
         (emit [SegQuadCurveTo (placedX dx a) (placedY dy a)
                               (F64.add (midX a b) dx) (F64.add (midY a b) dy)] before,
          mkTracer (fst (pointToF64Point b)) (snd (pointToF64Point b)) false)).
Proof.
  intros Ha Hb startX startY before. subst before.
  unfold drawContour. rewrite (pointToF64Point_eta p0).
  fold startX startY.
  replace (pre ++ a :: b :: post) with ((pre ++ [a]) ++ b :: post)
    by (rewrite <- app_assoc; reflexivity).
  rewrite fold_left_app. cbn [fold_left].
  f_equal. f_equal.
  pose proof (fold_contourStep_last dx dy pre a
                (MoveTo (F64.add startX dx) (F64.add startY dy) gc,
                 mkTracer startX startY true)) as Ht.
  destruct (fold_left (contourStep dx dy) (pre ++ [a])
              (MoveTo (F64.add startX dx) (F64.add startY dy) gc,
               mkTracer startX startY true)) as [gc1 t1].
  simpl in Ht. subst t1.
  rewrite (contourStep_off_off dx dy gc1 (tracerAt a) b Hb Ha).
  cbn [fst snd]. unfold tracerAt. rewrite Hb. reflexivity.
Qed.

Lemma drawContour_off_off_midpoint_witness :
  drawContour sampleBowl F64.zero F64.zero sampleGC
  = closeContour F64.zero (F64.neg F64.zero) F64.zero F64.zero
      (fold_left (contourStep F64.zero F64.zero) [mkPoint 0 64 1]
         (emit [SegQuadCurveTo (F64.of_int 1) F64.zero
                               (F64.of_int 1) (F64.div (F64.of_int (-1)) (F64.of_int 2))]
               (emit [SegMoveTo F64.zero F64.zero] sampleGC),
          mkTracer (F64.of_int 1) (F64.of_int (-1)) false)).
Proof.
  exact (drawContour_off_off_midpoint (mkPoint 0 0 1) [] (mkPoint 64 0 0)
           (mkPoint 64 64 0) [mkPoint 0 64 1] F64.zero F64.zero sampleGC
           eq_refl eq_refl).
Defined.

(** The first point of a contour is taken as on-curve whatever its flag:
    an off-curve second point is only remembered as a control point. *)
Lemma drawContour_first_assumed_on_curve (p0 b : Point) (post : list Point)
    (dx dy : float64) (gc : GraphicContext) :
  onCurve b = false ->
  drawContour (p0 :: b :: post) dx dy gc
  = closeContour (fst (pointToF64Point p0)) (snd (pointToF64Point p0)) dx dy
      (fold_left (contourStep dx dy) post
         (emit [SegMoveTo (placedX dx p0) (placedY dy p0)] gc,
          mkTracer (fst (pointToF64Point b)) (snd (pointToF64Point b)) false)).
Proof.
  intros Hb. unfold drawContour. rewrite (pointToF64Point_eta p0).
  cbn [fold_left].
  rewrite contourStep_off_on by (exact Hb || reflexivity).
  unfold tracerAt. rewrite Hb. reflexivity.
Qed.

(** ** Draw dispatch *)

Lemma pdf_call_fold (cs : list PdfCall) : forall p,
  fold_left (fun p' c => Pdf.call c p') cs p
  = mkFpdf (pdfAlpha p) (pdfBlendMode p) (pdfFontSize p) (pdfFont p) (pdfDash p)
           (pdfCalls p ++ cs).
Proof.
  induction cs as [|c cs IH]; intros p; cbn [fold_left].
  - rewrite app_nil_r. destruct p; reflexivity.
  - rewrite IH. unfold Pdf.call. cbn. now rewrite <- app_assoc.
Qed.

Lemma draw_spec (style : string) (alpha : Z) (paths : list PathStorage)
    (gc : GraphicContext) :
  draw style alpha paths gc
  = withPdf (afterDraw alpha (drawCalls style alpha paths (Path (Current gc)) (pdf gc))
                       (pdf gc)) gc.
Proof.
  unfold draw, Convert, afterDraw, drawCalls, heldAlpha. rewrite pdf_call_fold.
  fold (alphaOf alpha). cbn [Pdf.GetAlpha pdfAlpha pdfBlendMode].
  destruct (negb (F64.eqb (alphaOf alpha) (pdfAlpha (pdf gc))));
    unfold Pdf.DrawPath, Pdf.SetAlpha, Pdf.call; cbn;
    now rewrite <- ?app_assoc.
Qed.

Lemma isPathCall_convert (segs : list Segment) :
  filter isPathCall (map convertSegment segs) = map convertSegment segs.
Proof.
  induction segs as [|s segs IH]; [reflexivity|].
  cbn [map filter]. destruct s; cbn [convertSegment isPathCall]; now rewrite IH.
Qed.

Lemma isDrawCall_convert (segs : list Segment) :
  filter isDrawCall (map convertSegment segs) = [].
Proof.
  induction segs as [|s segs IH]; [reflexivity|].
  cbn [map filter]. destruct s; cbn [convertSegment isDrawCall]; exact IH.
Qed.

Lemma drawCalls_path_calls style alpha paths path p :
  filter isPathCall (drawCalls style alpha paths path p)
  = map convertSegment (List.concat (paths ++ [path])).
Proof.
  unfold drawCalls. rewrite !filter_app, isPathCall_convert.
  destruct (negb _); cbn; now rewrite app_nil_r.
Qed.

Lemma drawCalls_draw_calls style alpha paths path p :
  filter isDrawCall (drawCalls style alpha paths path p) = [PdfDrawPath style].
Proof.
  unfold drawCalls. rewrite !filter_app, isDrawCall_convert.
  destruct (negb _); reflexivity.
Qed.

Lemma drawsWithAlpha_convert (a : float64) (segs : list Segment) (rest : list PdfCall) :
  drawsWithAlpha a (map convertSegment segs ++ rest) = drawsWithAlpha a rest.
Proof.
  induction segs as [|s segs IH]; [reflexivity|].
  cbn [map app]. destruct s; cbn [convertSegment drawsWithAlpha]; exact IH.
Qed.

Lemma drawsWithAlpha_drawCalls style alpha paths path p (rest : list PdfCall) :
  drawsWithAlpha (pdfAlpha p) (drawCalls style alpha paths path p ++ rest)
  = (style, heldAlpha alpha (pdfAlpha p))
      :: drawsWithAlpha (heldAlpha alpha (pdfAlpha p)) rest.
Proof.
  unfold drawCalls, heldAlpha. rewrite <- !app_assoc, drawsWithAlpha_convert.
  destruct (negb _); reflexivity.
Qed.

Section AlphaFacts.
Import F64 F64Facts.

Lemma SFdiv_finite_not_nan sx mx ex sy my ey :
  div (S754_finite sx mx ex) (S754_finite sy my ey) <> S754_nan.
Proof.
  unfold div. cbn [SFdiv]. unfold SFdiv_core_binary.
  set (m' := match _ with Z0 => _ | Zpos _ => _ | Zneg _ => _ end).
  assert (Hm' : 0 <= m').
  { unfold m'. destruct (_ - _ - _) as [|t|t]; try lia.
    rewrite Z.shiftl_mul_pow2 by lia. pose proof (pow2_pos (Zpos t) ltac:(lia)). nia. }
  pose proof (Z.div_pos m' (Zpos my) Hm' ltac:(lia)) as Hq.
  unfold Z.div in Hq. destruct (Z.div_eucl m' (Zpos my)) as [q r].
  apply binary_round_aux_not_nan. exact Hq.
Qed.

Lemma alphaOf_not_nan (alpha : Z) : alphaOf alpha <> S754_nan.
Proof.
  unfold alphaOf.
  assert (exists m e, alphaMax = S754_finite false m e) as [m [e ->]]
    by (eexists; eexists; vm_compute; reflexivity).
  unfold of_int, binary_normalize.
  destruct alpha as [|p|p]; [discriminate| |].
  - destruct (binary_round_rounded false p 0) as [H _].
    destruct (binary_round prec emax false p 0); cbn [rounded] in H;
      try contradiction; try discriminate.
    apply SFdiv_finite_not_nan.
  - destruct (binary_round_rounded true p 0) as [H _].
    destruct (binary_round prec emax true p 0); cbn [rounded] in H;
      try contradiction; try discriminate.
    apply SFdiv_finite_not_nan.
Qed.

(** After the update of [draw] the handle holds an alpha equal to the one
    computed from the colour. *)
Lemma heldAlpha_eqb (alpha : Z) (current : float64) :
  eqb (heldAlpha alpha current) (alphaOf alpha) = true.
Proof.
  unfold heldAlpha. destruct (eqb (alphaOf alpha) current) eqn:E; cbn [negb].
  - apply SFeqb_sym. exact E.
  - apply SFeqb_refl, alphaOf_not_nan.
Qed.

End AlphaFacts.

(** C3. [FillStroke] issues, when the alpha channels of the stroke and fill
    colours are equal, exactly one draw command, of style "FD" followed by
    the even-odd suffix of the fill rule, and otherwise exactly two, "F"
    with that suffix and then "S"; each is issued while the handle holds
    an alpha equal to the one computed from the colour concerned. *)
Theorem FillStroke_draws (paths : list PathStorage) (gc : GraphicContext) :
  let rule := fillRuleSuffix gc in
  let alphaS := cA (StrokeColor (Current gc)) in
  let alphaF := cA (FillColor (Current gc)) in
  let current := pdfAlpha (pdf gc) in
  exists calls,
    pdfCalls (pdf (FillStroke paths gc)) = pdfCalls (pdf gc) ++ calls
    /\ drawsWithAlpha current calls
       = (if alphaS =? alphaF
          then [(("FD" ++ rule)%string, heldAlpha alphaF current)]
          else [(("F" ++ rule)%string, heldAlpha alphaF current);
                ("S"%string, heldAlpha alphaS (heldAlpha alphaF current))])
    /\ fillRuleSuffix gc
       = (if UseNonZeroWinding (CFillRule (Current gc))
          then EmptyString else "*"%string)
    /\ (forall a c, F64.eqb (heldAlpha a c) (alphaOf a) = true).
Proof.
  intros rule alphaS alphaF current.
  unfold FillStroke. fold rule alphaS alphaF. fold (fillRuleSuffix gc). fold rule.
  destruct (alphaS =? alphaF) eqn:E.
  - eexists. split; [|split; [|split]].
    + rewrite draw_spec. cbn. reflexivity.
    + rewrite <- (app_nil_r (drawCalls _ _ _ _ _)).
      unfold current. rewrite drawsWithAlpha_drawCalls. reflexivity.
    + unfold rule, fillRuleSuffix.
      destruct (UseNonZeroWinding (CFillRule (Current gc))); reflexivity.
    + apply heldAlpha_eqb.
  - eexists. split; [|split; [|split]].
    + rewrite !draw_spec. cbn. rewrite <- app_assoc. reflexivity.
    + unfold current. rewrite drawsWithAlpha_drawCalls.
      rewrite <- (app_nil_r (drawCalls "S" _ _ _ _)).
      change (heldAlpha alphaF (pdfAlpha (pdf gc)))
        with (pdfAlpha (afterDraw alphaF
                (drawCalls ("F" ++ rule) alphaF paths (Path (Current gc)) (pdf gc)) (pdf gc))).
      rewrite drawsWithAlpha_drawCalls. reflexivity.
    + unfold rule, fillRuleSuffix.
      destruct (UseNonZeroWinding (CFillRule (Current gc))); reflexivity.
    + apply heldAlpha_eqb.
Qed.

(** With an opaque fill and a translucent stroke the sample context draws
    twice: "F" at alpha 1, then "S" at the alpha of the stroke colour. *)
Example FillStroke_translucent :
  drawsWithAlpha (pdfAlpha (pdf translucentGC))
                 (pdfCalls (pdf (FillStroke [] translucentGC)))
  = [("F"%string, F64.of_int 1); ("S"%string, alphaOf 32768)].
Proof. vm_compute. reflexivity. Qed.

Lemma resetPath_pdf (gc : GraphicContext) : pdf (resetPath gc) = pdf gc.
Proof. reflexivity. Qed.

Lemma resetPath_path (gc : GraphicContext) : Path (Current (resetPath gc)) = NewPathStorage.
Proof. reflexivity. Qed.

(** The calls of one public draw operation: each of its draw commands is
    preceded by the segments of the passed paths and of the current path. *)
Lemma runDrawOp_calls (op : DrawOp) (paths : list PathStorage) (gc : GraphicContext) :
  exists calls,
    pdfCalls (pdf (runDrawOp op paths gc)) = pdfCalls (pdf gc) ++ calls
    /\ filter isPathCall calls
       = List.concat
           (repeat (map convertSegment (List.concat (paths ++ [Path (Current gc)])))
                   (List.length (filter isDrawCall calls))).
Proof.
  destruct op; cbn [runDrawOp].
  - unfold Stroke. rewrite resetPath_pdf, draw_spec. eexists. split; [reflexivity|].
    rewrite drawCalls_path_calls, drawCalls_draw_calls. cbn. now rewrite app_nil_r.
  - unfold Fill. rewrite resetPath_pdf, draw_spec. eexists. split; [reflexivity|].
    rewrite drawCalls_path_calls, drawCalls_draw_calls. cbn. now rewrite app_nil_r.
  - unfold FillStroke. rewrite resetPath_pdf.
    destruct (_ =? _).
    + rewrite draw_spec. eexists. split; [reflexivity|].
      rewrite drawCalls_path_calls, drawCalls_draw_calls. cbn. now rewrite app_nil_r.
    + rewrite !draw_spec. eexists. split; [cbn; rewrite <- app_assoc; reflexivity|].
      rewrite !filter_app, !drawCalls_path_calls, !drawCalls_draw_calls.
      cbn. now rewrite app_nil_r.
Qed.

(** C8. Each of [Stroke], [Fill] and [FillStroke], whatever paths it is
    passed and whatever the state, leaves the current path a fresh empty
    path; a draw operation that follows immediately hands to the handle,
    for each of its draw commands, the segments of its own passed paths
    and nothing else. *)
Theorem draw_consumes_path (op : DrawOp) (paths : list PathStorage)
    (gc : GraphicContext) :
  Path (Current (runDrawOp op paths gc)) = NewPathStorage
  /\ forall (op2 : DrawOp) (paths2 : list PathStorage),
       exists calls,
         pdfCalls (pdf (runDrawOp op2 paths2 (runDrawOp op paths gc)))
         = pdfCalls (pdf (runDrawOp op paths gc)) ++ calls
         /\ filter isPathCall calls
            = List.concat (repeat (map convertSegment (List.concat paths2))
                                  (List.length (filter isDrawCall calls))).
Proof.
  assert (Hreset : Path (Current (runDrawOp op paths gc)) = NewPathStorage)
    by (destruct op; reflexivity).
  split; [exact Hreset|].
  intros op2 paths2.
  destruct (runDrawOp_calls op2 paths2 (runDrawOp op paths gc)) as [calls [E F]].
  exists calls. split; [exact E|].
  rewrite F, Hreset, concat_app. cbn. now rewrite app_nil_r.
Qed.

(** ** State stack *)

(** Record plumbing only: projections of updated records. *)
Ltac plumb :=
  cbn [Current Saved pdf glyphBuf DPI logged withCurrent withPdf withGlyphBuf
       FontSize Scale CFont CFontData LineWidth StrokeColor FillColor CFillRule
       CCap CJoin Dash DashOffset Path withPath withFontSize withScale withFont
       withLineWidth withStrokeColor withFillColor withFillRule withCap withJoin
       withDash pdfAlpha pdfBlendMode pdfFontSize pdfFont pdfDash pdfCalls
       Pdf.call Pdf.SetDashPattern Pdf.TransformBegin Pdf.TransformEnd
       Pdf.SetLineWidth Pdf.SetLineCapStyle Pdf.SetLineJoinStyle
       Pdf.SetDrawColor Pdf.SetFillColor Pdf.SetTextColor] in *.

Lemma SetStrokeColor_eq (c : Color) (gc : GraphicContext) :
  SetStrokeColor c gc
  = withPdf (Pdf.call (setDrawColorCall c) (pdf gc))
            (withCurrent (withStrokeColor c (Current gc)) gc).
Proof.
  unfold SetStrokeColor, setDrawColorCall, Stack.SetStrokeColor.
  destruct (rgb c) as [[r g] b]. reflexivity.
Qed.

Lemma SetFillColor_eq (c : Color) (gc : GraphicContext) :
  SetFillColor c gc
  = withPdf (Pdf.call (setTextColorCall c) (Pdf.call (setFillColorCall c) (pdf gc)))
            (withCurrent (withFillColor c (Current gc)) gc).
Proof.
  unfold SetFillColor, setFillColorCall, setTextColorCall, Stack.SetFillColor.
  destruct (rgb c) as [[r g] b]. reflexivity.
Qed.

Lemma SetLineWidth_eq (w : float64) (gc : GraphicContext) :
  SetLineWidth w gc
  = withPdf (Pdf.call (PdfSetLineWidth w) (pdf gc))
            (withCurrent (withLineWidth w (Current gc)) gc).
Proof. reflexivity. Qed.

Lemma SetLineCap_eq (c : Cap) (gc : GraphicContext) :
  SetLineCap c gc
  = withPdf (Pdf.call (PdfSetLineCapStyle (caps c)) (pdf gc))
            (withCurrent (withCap c (Current gc)) gc).
Proof. reflexivity. Qed.

Lemma SetLineJoin_eq (j : Join) (gc : GraphicContext) :
  SetLineJoin j gc
  = withPdf (Pdf.call (PdfSetLineJoinStyle (joins j)) (pdf gc))
            (withCurrent (withJoin j (Current gc)) gc).
Proof. reflexivity. Qed.

Lemma SetFillRule_eq (f : FillRule) (gc : GraphicContext) :
  SetFillRule f gc = withCurrent (withFillRule f (Current gc)) gc.
Proof. reflexivity. Qed.

Lemma SetFontSize_frame (fs : float64) (gc : GraphicContext) :
  exists sc,
    SetFontSize fs gc = withCurrent (withScale sc (withFontSize fs (Current gc))) gc.
Proof. eexists. reflexivity. Qed.

(** What the setters of [Restore] do to a context [gc0] freshly popped. *)
Lemma Restore_setters (gc : GraphicContext) :
  let gc0 := Stack.Restore (withPdf (Pdf.TransformEnd (pdf gc)) gc) in
  let c := Current gc0 in
  exists sc,
    Restore gc
    = mkGC (withJoin (CJoin c) (withCap (CCap c) (withFillRule (CFillRule c)
             (withFillColor (FillColor c) (withStrokeColor (StrokeColor c)
               (withLineWidth (LineWidth c)
                 (withScale sc (withFontSize (FontSize c) c))))))))
           (Saved gc0)
           (Pdf.call (PdfSetLineJoinStyle (joins (CJoin c)))
             (Pdf.call (PdfSetLineCapStyle (caps (CCap c)))
               (Pdf.call (setTextColorCall (FillColor c))
                 (Pdf.call (setFillColorCall (FillColor c))
                   (Pdf.call (setDrawColorCall (StrokeColor c))
                     (Pdf.call (PdfSetLineWidth (LineWidth c)) (pdf gc0)))))))
           (glyphBuf gc0) (DPI gc0) (logged gc0).
Proof.
  intros gc0 c. unfold Restore. fold gc0. cbn zeta.
  destruct (SetFontSize_frame (FontSize (Current gc0)) gc0) as [sc ->].
  exists sc.
  rewrite SetLineJoin_eq, SetLineCap_eq, SetFillRule_eq, SetFillColor_eq,
    SetStrokeColor_eq, SetLineWidth_eq.
  plumb. reflexivity.
Qed.

(** [Restore] issues no font and no dash call: the font and the dash
    pattern the handle holds are those it held before. *)
Lemma Restore_handle_font_dash (gc : GraphicContext) :
  pdfFont (pdf (Restore gc)) = pdfFont (pdf gc)
  /\ pdfDash (pdf (Restore gc)) = pdfDash (pdf gc).
Proof.
  destruct (Restore_setters gc) as [sc ->]. plumb.
  unfold Stack.Restore. destruct (Saved _); plumb; split; reflexivity.
Qed.

(** C9, as amended.  [Save] followed at once by [Restore] leaves the
    stroke colour, the fill colour, the line width, the line cap, the line
    join and the fill rule as they were.  The handle receives the transform
    bracket and then the setters of line width, stroke colour, fill and
    text colour, line cap and line join with these values; the fill rule
    is re-applied by its setter to the context only.  No font, dash or
    path call is issued: the font and the dash pattern of the handle, the
    current path and the saved states are untouched. *)
Theorem Save_Restore (gc : GraphicContext) :
  let gc' := Restore (Save gc) in
  StrokeColor (Current gc') = StrokeColor (Current gc)
  /\ FillColor (Current gc') = FillColor (Current gc)
  /\ LineWidth (Current gc') = LineWidth (Current gc)
  /\ CCap (Current gc') = CCap (Current gc)
  /\ CJoin (Current gc') = CJoin (Current gc)
  /\ CFillRule (Current gc') = CFillRule (Current gc)
  /\ pdfCalls (pdf gc')
     = pdfCalls (pdf gc)
       ++ [PdfTransformBegin; PdfTransformEnd;
           PdfSetLineWidth (LineWidth (Current gc));
           setDrawColorCall (StrokeColor (Current gc));
           setFillColorCall (FillColor (Current gc));
           setTextColorCall (FillColor (Current gc));
           PdfSetLineCapStyle (caps (CCap (Current gc)));
           PdfSetLineJoinStyle (joins (CJoin (Current gc)))]
  /\ pdfFont (pdf gc') = pdfFont (pdf gc)
  /\ pdfDash (pdf gc') = pdfDash (pdf gc)
  /\ Path (Current gc') = Path (Current gc)
  /\ Saved gc' = Saved gc.
Proof.
  cbn zeta. destruct (Restore_setters (Save gc)) as [sc ->].
  unfold Save, Stack.Save, Stack.Restore. plumb.
  rewrite <- !app_assoc. cbn [app].
  repeat split; reflexivity.
Qed.

(** What [Restore] leaves alone: a dash pattern set between [Save] and
    [Restore] stays on the handle although the context is back to the
    saved one. *)
Lemma Restore_keeps_handle_dash (d : list float64) (o : float64) (gc : GraphicContext) :
  let gc' := Restore (SetLineDash d o (Save gc)) in
  pdfDash (pdf gc') = (d, o) /\ Dash (Current gc') = Dash (Current gc).
Proof.
  cbn zeta. destruct (Restore_setters (SetLineDash d o (Save gc))) as [sc ->].
  unfold SetLineDash, Stack.SetLineDash, Save, Stack.Save, Stack.Restore. plumb.
  split; reflexivity.
Qed.

(** C9 as stated fails for the fill rule: it is not re-applied to the
    handle.  Two contexts that differ in the fill rule only make
    [Save]-[Restore] issue the same calls, none of which carries a fill
    rule. *)
Lemma Restore_fill_rule_not_sent :
  CFillRule (Current evenOddGC) <> CFillRule (Current sampleGC)
  /\ pdfCalls (pdf (Restore (Save evenOddGC))) = pdfCalls (pdf (Restore (Save sampleGC)))
  /\ pdfCalls (pdf (Restore (Save evenOddGC)))
     = [PdfTransformBegin; PdfTransformEnd; PdfSetLineWidth (F64.of_int 1);
        PdfSetDrawColor 0 0 0; PdfSetFillColor 255 255 255;
        PdfSetTextColor 255 255 255;
        PdfSetLineCapStyle "round"; PdfSetLineJoinStyle "round"].
Proof.
  split; [discriminate|]. split; vm_compute; reflexivity.
Qed.

(** ** Glyph layout *)

Lemma withGlyphBuf_same (gc : GraphicContext) : withGlyphBuf (glyphBuf gc) gc = gc.
Proof. destruct gc; reflexivity. Qed.

Lemma tracedFrom_refl (gc : GraphicContext) : tracedFrom gc gc.
Proof.
  exists [], (glyphBuf gc). now rewrite withGlyphBuf_same, emit_nil.
Qed.

Lemma tracedFrom_trans (a b c : GraphicContext) :
  tracedFrom a b -> tracedFrom b c -> tracedFrom a c.
Proof.
  intros [s1 [b1 ->]] [s2 [b2 ->]]. exists (s1 ++ s2), b2.
  unfold emit, withGlyphBuf, withCurrent, withPath. cbn. now rewrite app_assoc.
Qed.

Lemma tracedFrom_emit (segs : list Segment) (gc : GraphicContext) :
  tracedFrom gc (emit segs gc).
Proof. exists segs, (glyphBuf gc). now rewrite withGlyphBuf_same. Qed.

Lemma tracedFrom_frame (gc gc' : GraphicContext) : tracedFrom gc gc' ->
  pdf gc' = pdf gc /\ logged gc' = logged gc /\ Saved gc' = Saved gc
  /\ CFont (Current gc') = CFont (Current gc)
  /\ Scale (Current gc') = Scale (Current gc)
  /\ exists segs, Path (Current gc') = Path (Current gc) ++ segs.
Proof.
  intros [segs [buf ->]]. repeat split. exists segs. reflexivity.
Qed.

Lemma tracedFrom_log (e : LogEntry) (gc gc' : GraphicContext) :
  tracedFrom gc gc' -> tracedFrom (logPrintln e gc) (logPrintln e gc').
Proof. intros [segs [buf ->]]. exists segs, buf. reflexivity. Qed.

Lemma fold_contourStep_emit dx dy (ps : list Point) : forall gc t,
  exists segs, fst (fold_left (contourStep dx dy) ps (gc, t)) = emit segs gc.
Proof.
  induction ps as [|p ps IH]; intros gc t; cbn [fold_left].
  - exists []. cbn [fst]. now rewrite emit_nil.
  - assert (exists s1 t1, contourStep dx dy (gc, t) p = (emit s1 gc, t1))
      as [s1 [t1 E]].
    { destruct (onCurve p) eqn:Hp, (on0 t) eqn:Ht.
      - eexists; eexists; apply contourStep_on_on; assumption.
      - eexists; eexists; apply contourStep_on_off; assumption.
      - exists [], (tracerAt p). rewrite emit_nil. apply contourStep_off_on; assumption.
      - eexists; eexists; apply contourStep_off_off; assumption. }
    rewrite E. destruct (IH (emit s1 gc) t1) as [s2 E2].
    exists (s1 ++ s2). now rewrite E2, emit_emit.
Qed.

Lemma drawContour_traced (ps : list Point) dx dy gc :
  tracedFrom gc (drawContour ps dx dy gc).
Proof.
  destruct ps as [|p0 rest]; [apply tracedFrom_refl|].
  unfold drawContour. rewrite (pointToF64Point_eta p0).
  set (gc1 := MoveTo _ _ gc). set (t0 := mkTracer _ _ true).
  destruct (fold_contourStep_emit dx dy rest gc1 t0) as [segs E].
  destruct (fold_left (contourStep dx dy) rest (gc1, t0)) as [gc2 t]. cbn [fst] in E.
  subst gc2. unfold closeContour.
  apply tracedFrom_trans with gc1; [apply tracedFrom_emit|].
  apply tracedFrom_trans with (emit segs gc1); [apply tracedFrom_emit|].
  destruct (on0 t); apply tracedFrom_emit.
Qed.

Lemma drawContours_traced pts dx dy (ends : list Z) : forall e0 gc gc',
  drawContours pts ends e0 dx dy gc = Some gc' -> tracedFrom gc gc'.
Proof.
  induction ends as [|e1 ends IH]; intros e0 gc gc'; cbn [drawContours].
  - intros [= <-]. apply tracedFrom_refl.
  - destruct (slice pts e0 e1) as [ps|]; [|discriminate]. intros H.
    eapply tracedFrom_trans; [apply drawContour_traced | exact (IH _ _ _ H)].
Qed.

Lemma drawContours_well_formed pts dx dy (ends : list Z) : forall e0 gc,
  wellFormedEnds (Z.of_nat (List.length pts)) e0 ends = true ->
  exists gc', drawContours pts ends e0 dx dy gc = Some gc'.
Proof.
  induction ends as [|e1 ends IH]; intros e0 gc; cbn [drawContours wellFormedEnds].
  - intros _. now exists gc.
  - intros H. apply andb_prop in H. destruct H as [H Hrest].
    unfold slice. rewrite H. apply IH, Hrest.
Qed.

(** A glyph is traced into the path, or its loading error is returned with
    the context untouched; the handle and the log never change. *)
Lemma drawGlyph_traced glyph dx dy gc r gc' :
  drawGlyph glyph dx dy gc = Returns r gc' -> tracedFrom gc gc'.
Proof.
  unfold drawGlyph. destruct (CFont (Current gc)) as [font|]; [|discriminate].
  destruct (FLoad font _ glyph) as [err|buf].
  - intros [= _ <-]. apply tracedFrom_refl.
  - destruct (drawContours _ _ 0 dx dy (withGlyphBuf buf gc)) as [gc2|] eqn:E;
      [|discriminate].
    intros [= _ <-]. apply drawContours_traced in E.
    eapply tracedFrom_trans; [|exact E].
    exists [], buf. now rewrite emit_nil.
Qed.

Lemma drawGlyph_loads f r dx dy gc :
  CFont (Current gc) = Some f ->
  glyphLoads f (F64.to_int32 (Scale (Current gc))) r ->
  exists gc', drawGlyph (FIndex f r) dx dy gc = Returns None gc'.
Proof.
  intros Hf [buf [Hload Hwf]]. unfold drawGlyph. rewrite Hf, Hload.
  destruct (drawContours_well_formed (GPoint buf) dx dy (GEnd buf) 0
              (withGlyphBuf buf gc) Hwf) as [gc' ->].
  now exists gc'.
Qed.

Lemma drawGlyph_fails f r err dx dy gc :
  CFont (Current gc) = Some f ->
  FLoad f (F64.to_int32 (Scale (Current gc))) (FIndex f r) = inl err ->
  drawGlyph (FIndex f r) dx dy gc = Returns (Some err) gc.
Proof.
  intros Hf Hload. unfold drawGlyph. now rewrite Hf, Hload.
Qed.

(** Whatever the font and the string, the layout loop leaves the handle
    alone and logs at most one glyph error. *)
Lemma layoutLoop_frame font startx y (rs : list rune) : forall x prev hasPrev gc w gc',
  layoutLoop font rs startx x y prev hasPrev gc = Returns w gc' ->
  pdf gc' = pdf gc
  /\ (logged gc' = logged gc \/ exists err, logged gc' = logged gc ++ [LogGlyphError err]).
Proof.
  induction rs as [|r rs IH]; intros x prev hasPrev gc w gc'; cbn [layoutLoop].
  - intros [= _ <-]. split; [reflexivity | now left].
  - destruct font as [f|]; [|discriminate].
    destruct (drawGlyph _ _ y gc) as [[err|] gc1|] eqn:E; [| |discriminate].
    + intros [= _ <-]. apply drawGlyph_traced, tracedFrom_frame in E.
      destruct E as [Hp [Hl _]]. cbn [logPrintln pdf logged]. split; [exact Hp|].
      right. exists err. now rewrite Hl.
    + intros H. apply IH in H. apply drawGlyph_traced, tracedFrom_frame in E.
      destruct E as [Hp [Hl _]]. rewrite <- Hp, <- Hl. exact H.
Qed.

Lemma advances_app f sc (pre : list rune) : forall rest prev hasPrev,
  advances f sc (pre ++ rest) prev hasPrev
  = advances f sc pre prev hasPrev
    ++ advances f sc rest (lastIndex f pre prev) (hasPrevAfter pre hasPrev).
Proof.
  induction pre as [|r pre IH]; intros rest prev hasPrev; [reflexivity|].
  cbn [app advances]. rewrite IH. rewrite <- !app_assoc. cbn [app].
  unfold lastIndex. cbn [fold_left hasPrevAfter].
  destruct pre; reflexivity.
Qed.

(** Laying out code points whose glyphs all load: the loop arrives at the
    rest of the string with the cursor advanced by their kerning and
    advance values and with their contours traced. *)
Lemma layoutLoop_loaded f sc startx y (pre : list rune) :
  forall x prev hasPrev gc,
  CFont (Current gc) = Some f -> F64.to_int32 (Scale (Current gc)) = sc ->
  Forall (glyphLoads f sc) pre ->
  exists gc1,
    tracedFrom gc gc1
    /\ forall rest : list rune,
         layoutLoop (Some f) (pre ++ rest) startx x y prev hasPrev gc
         = layoutLoop (Some f) rest startx
             (cursorAfter (advances f sc pre prev hasPrev) x) y
             (lastIndex f pre prev) (hasPrevAfter pre hasPrev) gc1.
Proof.
  induction pre as [|r pre IH]; intros x prev hasPrev gc Hf Hsc Hall.
  - exists gc. split; [apply tracedFrom_refl | reflexivity].
  - inversion Hall as [|? ? Hr Hpre]; subst.
    set (x1 := if hasPrev
               then F64.add x (fUnitsToFloat64
                      (FKerning f (F64.to_int32 (Scale (Current gc))) prev (FIndex f r)))
               else x).
    destruct (drawGlyph_loads f r x1 y gc Hf Hr) as [gc0 E].
    pose proof (drawGlyph_traced _ _ _ _ _ _ E) as T0.
    destruct (tracedFrom_frame _ _ T0) as [_ [_ [_ [Hf' [Hs' _]]]]].
    destruct (IH (F64.add x1 (fUnitsToFloat64
                   (FAdvanceWidth f (F64.to_int32 (Scale (Current gc))) (FIndex f r))))
                (FIndex f r) true gc0) as [gc1 [T L]];
      [now rewrite Hf' | now rewrite Hs' | exact Hpre |].
    exists gc1. split; [eapply tracedFrom_trans; eassumption|].
    intros rest. cbn [app layoutLoop]. fold x1. rewrite E, Hs', L. f_equal.
    + unfold cursorAfter. cbn [advances]. rewrite map_app, fold_left_app.
      cbn [map fold_left]. f_equal. unfold x1.
      destruct hasPrev; reflexivity.
    + destruct pre; reflexivity.
Qed.

Section CursorFacts.
Import F64 F64Facts.

Lemma fUnitsToFloat64_small (v : Z) : - 2 ^ 29 <= v < 2 ^ 29 ->
  fUnitsToFloat64 v = dyadic v 6.
Proof.
  intros Hv. rewrite fUnitsToFloat64_dyadic, Z.shiftl_mul_pow2 by lia.
  rewrite wrap32_small by lia.
  apply (dyadic_scale v 2 6); lia.
Qed.

(** Adding converted font units to a cursor that is a multiple of 1/64 is
    exact while the sum fits the mantissa. *)
Lemma cursorAfter_exact (vs : list Z) : forall a,
  Forall (fun v => - 2 ^ 29 <= v < 2 ^ 29) vs ->
  Z.abs a + Z.of_nat (List.length vs) * 2 ^ 29 < 2 ^ 53 ->
  cursorAfter vs (dyadic a 6) = dyadic (a + sumZ vs) 6.
Proof.
  unfold cursorAfter.
  induction vs as [|v vs IH]; intros a Hall Hb; cbn [map fold_left sumZ fold_right].
  - now rewrite Z.add_0_r.
  - inversion Hall as [|? ? Hv Hvs]; subst.
    cbn [List.length] in Hb. rewrite Nat2Z.inj_succ in Hb.
    rewrite fUnitsToFloat64_small by exact Hv.
    unfold add. rewrite add_dyadic by lia.
    fold add. rewrite IH; [|exact Hvs|lia].
    f_equal. unfold sumZ. lia.
Qed.

Lemma sumZ_bound (vs : list Z) :
  Forall (fun v => - 2 ^ 29 <= v < 2 ^ 29) vs ->
  Z.abs (sumZ vs) <= Z.of_nat (List.length vs) * 2 ^ 29.
Proof.
  induction 1 as [|v vs Hv _ IH]; cbn [sumZ fold_right List.length].
  - lia.
  - rewrite Nat2Z.inj_succ. unfold sumZ in IH. lia.
Qed.

Lemma sub_zero_dyadic (n : Z) : Z.abs n < 2 ^ 53 -> sub (dyadic n 6) zero = dyadic n 6.
Proof.
  intros Hn. rewrite dyadic_canonZ by lia. destruct n; reflexivity.
Qed.

Lemma sub_diag_finite (x : float64) : is_finite x = true -> sub x x = zero.
Proof.
  destruct x as [s|s| |s m e]; try discriminate; intros _.
  - destruct s; reflexivity.
  - unfold sub. cbn [SFsub]. now rewrite Z.sub_diag.
Qed.

Lemma cursorAfter_valid (vs : list Z) : forall x,
  valid x = true -> valid (cursorAfter vs x) = true.
Proof.
  unfold cursorAfter.
  induction vs as [|v vs IH]; intros x Hx; cbn [map fold_left]; [exact Hx|].
  apply IH. apply SFadd_valid; [exact Hx | apply fUnitsToFloat64_valid].
Qed.

Lemma width_exact (vs : list Z) :
  Forall (fun v => - 2 ^ 29 <= v < 2 ^ 29) vs ->
  Z.of_nat (List.length vs) <= 2 ^ 20 ->
  represents (sub (cursorAfter vs zero) zero) (sumZ vs # 64).
Proof.
  intros Hall Hlen. pose proof (sumZ_bound vs Hall) as Hs.
  change zero with (dyadic 0 6) at 1.
  rewrite cursorAfter_exact by (try assumption; lia).
  rewrite Z.add_0_l, sub_zero_dyadic by lia.
  apply (dyadic_represents (sumZ vs) 6); lia.
Qed.

End CursorFacts.

(** The two-glyph sample laid out from 0. *)
Lemma sample_width :
  exists gc', CreateStringPath [65; 66] F64.zero F64.zero sampleGC
              = Returns (F64.of_int 20) gc'.
Proof. eexists. lazy. reflexivity. Qed.

(** C6, as amended.  When the font is set and every glyph of the string
    loads, [CreateStringPath] returns the float64 difference between the
    final cursor and the start, the final cursor being the start to which
    each kerning and each advance width, converted to pixels, has been
    added in order in float64 arithmetic, and it only traces contours.
    From the start 0, and while the values do not overflow, that width is
    exactly the sum of the kerning and advance values over 64.  The empty
    string changes nothing and returns [x - x], which is 0 for a finite
    [x]; the two-glyph sample (advances 10 and 8, kerning 2) laid out from
    0 returns 20. *)
Theorem CreateStringPath_width (f : Font) (s : list rune) (x y : float64)
    (gc : GraphicContext) :
  let sc := F64.to_int32 (Scale (Current gc)) in
  let vs := advances f sc s 0 false in
  (CFont (Current gc) = Some f -> Forall (glyphLoads f sc) s ->
   exists gc',
     CreateStringPath s x y gc = Returns (F64.sub (cursorAfter vs x) x) gc'
     /\ tracedFrom gc gc')
  /\ (Forall (fun v => - 2 ^ 29 <= v < 2 ^ 29) vs ->
      Z.of_nat (List.length vs) <= 2 ^ 20 ->
      F64.represents (F64.sub (cursorAfter vs F64.zero) F64.zero) (sumZ vs # 64))
  /\ CreateStringPath [] x y gc = Returns (F64.sub x x) gc
  /\ (F64.is_finite x = true -> F64.sub x x = F64.zero)
  /\ (exists gc', CreateStringPath [65; 66] F64.zero F64.zero sampleGC
                  = Returns (F64.of_int 20) gc').
Proof.
  intros sc vs. split; [|split; [|split; [|split]]].
  - intros Hf Hall. unfold CreateStringPath, loadCurrentFont. rewrite Hf.
    destruct (layoutLoop_loaded f sc x y s x 0 false gc Hf eq_refl Hall)
      as [gc1 [T L]].
    specialize (L []). rewrite app_nil_r in L. rewrite L. cbn [layoutLoop].
    exists gc1. split; [reflexivity | exact T].
  - apply width_exact.
  - reflexivity.
  - apply sub_diag_finite.
  - exact sample_width.
Qed.

Lemma CreateStringPath_width_witness :
  exists gc',
    CreateStringPath [65; 66] x12_2 F64.zero sampleGC
    = Returns (F64.sub (cursorAfter [640; 128; 512] x12_2) x12_2) gc'
    /\ tracedFrom sampleGC gc'.
Proof.
  apply (proj1 (CreateStringPath_width sampleFont [65; 66] x12_2 F64.zero sampleGC)).
  - reflexivity.
  - repeat constructor; eexists; (split; [reflexivity | reflexivity]).
Defined.

(** C6 as stated fails on rounding and on a start that is not finite: laid
    out from 12.2, the sample string with advances 10 and 8 and kerning 2
    returns 20 + 2 ^ -48 (printed 20.000000000000004), and the empty
    string laid out from +Inf returns NaN, not 0. *)
Lemma CreateStringPath_width_not_sum :
  advances sampleFont (F64.to_int32 (Scale (Current sampleGC))) [65; 66] 0 false
  = [640; 128; 512]
  /\ (exists gc',
        CreateStringPath [65; 66] x12_2 F64.zero sampleGC
        = Returns (S754_finite false 5629499534213121 (-48)) gc')
  /\ ~ F64.represents (S754_finite false 5629499534213121 (-48)) (20 # 1)
  /\ CreateStringPath [] (S754_infinity false) F64.zero sampleGC
     = Returns S754_nan sampleGC.
Proof.
  split; [reflexivity|]. split; [eexists; lazy; reflexivity|].
  split; [|reflexivity].
  intros [q [E H]]. injection E as <-. vm_compute in H. discriminate.
Qed.

(** C7. When the font is set, the glyphs of [pre] load and the glyph of [r]
    does not, [CreateStringPath] on [pre ++ r :: post] stops at [r]: it
    returns the start minus the cursor reached (the start advanced by the
    values of [pre] and by the kerning before [r]), whatever [post] is; the
    context is the one laying out [pre] alone leaves, contours included,
    with the error logged; and the returned value is negative whenever the
    cursor is past the start (the start being a float64 value). *)
Theorem CreateStringPath_glyph_failure (f : Font) (pre : list rune) (r : rune)
    (post : list rune) (err : error) (x y : float64) (gc : GraphicContext) :
  let sc := F64.to_int32 (Scale (Current gc)) in
  let cursor := cursorAfter (advances f sc pre 0 false ++ kerningTo f sc pre r) x in
  CFont (Current gc) = Some f ->
  Forall (glyphLoads f sc) pre ->
  FLoad f sc (FIndex f r) = inl err ->
  exists w1 gc1,
    CreateStringPath pre x y gc = Returns w1 gc1
    /\ tracedFrom gc gc1
    /\ CreateStringPath (pre ++ r :: post) x y gc
       = Returns (F64.sub x cursor) (logPrintln (LogGlyphError err) gc1)
    /\ (F64.valid x = true -> F64.ltb x cursor = true ->
        F64.ltb (F64.sub x cursor) F64.zero = true).
Proof.
  intros sc cursor Hf Hall Hload.
  unfold CreateStringPath, loadCurrentFont. rewrite Hf.
  destruct (layoutLoop_loaded f sc x y pre x 0 false gc Hf eq_refl Hall)
    as [gc1 [T L]].
  destruct (tracedFrom_frame _ _ T) as [_ [_ [_ [Hf1 [Hs1 _]]]]].
  rewrite Hf in Hf1.
  exists (F64.sub (cursorAfter (advances f sc pre 0 false) x) x), gc1.
  split; [|split; [exact T|split]].
  - specialize (L []). rewrite app_nil_r in L. rewrite L. reflexivity.
  - rewrite (L (r :: post)). cbn [layoutLoop].
    rewrite Hs1. fold sc.
    rewrite (drawGlyph_fails f r err _ y gc1 Hf1) by (rewrite Hs1; exact Hload).
    f_equal. f_equal. unfold cursor, cursorAfter, kerningTo.
    rewrite map_app, fold_left_app.
    destruct (hasPrevAfter pre false); reflexivity.
  - intros Hx Hlt. apply F64Facts.SFsub_negative; [exact Hx | | exact Hlt].
    apply cursorAfter_valid, Hx.
Qed.

Lemma CreateStringPath_glyph_failure_witness :
  exists w1 gc1,
    CreateStringPath [65] F64.zero F64.zero sampleGC = Returns w1 gc1
    /\ tracedFrom sampleGC gc1
    /\ CreateStringPath ([65] ++ 63 :: [66]) F64.zero F64.zero sampleGC
       = Returns (F64.sub F64.zero (cursorAfter ([640] ++ [0]) F64.zero))
                 (logPrintln (LogGlyphError "truetype: no outline"%string) gc1)
    /\ (F64.valid F64.zero = true ->
        F64.ltb F64.zero (cursorAfter ([640] ++ [0]) F64.zero) = true ->
        F64.ltb (F64.sub F64.zero (cursorAfter ([640] ++ [0]) F64.zero)) F64.zero = true).
Proof.
  apply (CreateStringPath_glyph_failure sampleFont [65] 63 [66]
           "truetype: no outline"%string F64.zero F64.zero sampleGC).
  - reflexivity.
  - repeat constructor; eexists; (split; [reflexivity | reflexivity]).
  - reflexivity.
Defined.

(** C10. [loadCurrentFont] returns the font of the current state and a nil
    error, whether or not a font is set; [CreateStringPath] therefore never
    takes its font-error branch: it always runs the layout loop and never
    logs a font error.  Without a font the empty string is laid out as
    usual and any other string dereferences the nil font. *)
Theorem loadCurrentFont_never_fails (gc : GraphicContext) (s : list rune)
    (x y : float64) :
  loadCurrentFont gc = (CFont (Current gc), None)
  /\ CreateStringPath s x y gc = layoutLoop (CFont (Current gc)) s x x y 0 false gc
  /\ (forall w gc', CreateStringPath s x y gc = Returns w gc' ->
      exists l, logged gc' = logged gc ++ l /\ forall e, ~ In (LogFontError e) l)
  /\ (CFont (Current gc) = None ->
      CreateStringPath [] x y gc = Returns (F64.sub x x) gc
      /\ forall r rs, CreateStringPath (r :: rs) x y gc = Panics).
Proof.
  split; [reflexivity|]. split; [reflexivity|]. split.
  - intros w gc' H. unfold CreateStringPath, loadCurrentFont in H.
    apply layoutLoop_frame in H. destruct H as [_ [Hl|[err Hl]]].
    + exists []. rewrite app_nil_r. split; [exact Hl | intros e []].
    + exists [LogGlyphError err]. split; [exact Hl|].
      intros e [Hin|[]]. discriminate.
  - intros Hnone. split; [reflexivity|]. intros r rs.
    unfold CreateStringPath, loadCurrentFont. rewrite Hnone. reflexivity.
Qed.

Lemma loadCurrentFont_never_fails_witness :
  CreateStringPath [] F64.zero F64.zero noFontGC
  = Returns (F64.sub F64.zero F64.zero) noFontGC
  /\ forall r rs, CreateStringPath (r :: rs) F64.zero F64.zero noFontGC = Panics.
Proof.
  apply (proj2 (proj2 (proj2
           (loadCurrentFont_never_fails noFontGC [] F64.zero F64.zero)))).
  reflexivity.
Defined.

(** ** Drawing strings *)

(** [StrokeStringAt] issues no call to the handle, and [FillStringAt] is
    [StrokeStringAt] followed by [Fill]. *)
Lemma StrokeStringAt_no_draw (text : list rune) (x y : float64)
    (gc : GraphicContext) (w : float64) (gc' : GraphicContext) :
  StrokeStringAt text x y gc = Returns w gc' ->
  pdf gc' = pdf gc /\ FillStringAt text x y gc = Returns w (Fill [] gc').
Proof.
  unfold StrokeStringAt, FillStringAt. intros H. rewrite H. split; [|reflexivity].
  unfold CreateStringPath, loadCurrentFont in H.
  apply layoutLoop_frame in H. exact (proj1 H).
Qed.

(** C2 fails on the code.  On the sample context, stroking the string "A"
    returns the same width as filling it, but issues no call to the handle
    and leaves the traced contour in the current path, whereas filling
    issues the path and one draw command "F" and resets the path. *)
Lemma StrokeStringAt_does_not_fill :
  exists w gc1 gc2,
    StrokeStringAt [65] F64.zero F64.zero sampleGC = Returns w gc1
    /\ FillStringAt [65] F64.zero F64.zero sampleGC = Returns w gc2
    /\ pdfCalls (pdf gc1) = []
    /\ List.length (Path (Current gc1)) = 4%nat
    /\ filter isDrawCall (pdfCalls (pdf gc2)) = [PdfDrawPath "F"]
    /\ List.length (filter isPathCall (pdfCalls (pdf gc2))) = 4%nat
    /\ Path (Current gc2) = [].
Proof.
  do 3 eexists.
  split; [lazy; reflexivity|].
  split; [lazy; reflexivity|].
  repeat split; reflexivity.
Qed.
